(** * The file-set index of syncthing (package [files]) and its Lamport clock

    A shallow embedding of [files/set.go] and [lamport/clock.go]:
    Go maps are [gmap]s, the 64-slot arrays are lists read and written
    by index, machine integers are [Z] with their wrap-around written
    out, and a run-time panic is the [Panic] result. *)

From Stdlib Require Import ZArith List Lia.
From stdpp Require Import gmap strings list fin_maps.

Local Open Scope Z_scope.

(** ** Machine integers *)

Definition wrap_u32 (x : Z) : Z := x mod 2 ^ 32.
Definition wrap_u64 (x : Z) : Z := x mod 2 ^ 64.
(** Go's [int] on a 64-bit target: two's complement. *)
Definition wrap_int (x : Z) : Z := (x + 2 ^ 63) mod 2 ^ 64 - 2 ^ 63.

(** ** Results of operations that can abort the process *)

Inductive result (A : Type) : Type :=
| Ok (a : A)
| Panic (msg : string).
Arguments Ok {A} a.
Arguments Panic {A} msg.

Global Instance result_ret : MRet result := λ A a, Ok a.
Global Instance result_bind : MBind result := λ A B k r,
  match r with
  | Ok a => k a
  | Panic msg => Panic msg
  end.

(** ** [crypto/md5] (RFC 1321), the digest [keyFor] calls *)

Module md5.

Definition Size : nat := 16.

Definition K : list Z :=
  [ 3614090360; 3905402710; 606105819; 3250441966;
    4118548399; 1200080426; 2821735955; 4249261313;
    1770035416; 2336552879; 4294925233; 2304563134;
    1804603682; 4254626195; 2792965006; 1236535329;
    4129170786; 3225465664; 643717713; 3921069994;
    3593408605; 38016083; 3634488961; 3889429448;
    568446438; 3275163606; 4107603335; 1163531501;
    2850285829; 4243563512; 1735328473; 2368359562;
    4294588738; 2272392833; 1839030562; 4259657740;
    2763975236; 1272893353; 4139469664; 3200236656;
    681279174; 3936430074; 3572445317; 76029189;
    3654602809; 3873151461; 530742520; 3299628645;
    4096336452; 1126891415; 2878612391; 4237533241;
    1700485571; 2399980690; 4293915773; 2240044497;
    1873313359; 4264355552; 2734768916; 1309151649;
    4149444226; 3174756917; 718787259; 3951481745 ].

Definition shifts : list Z :=
  [ 7; 12; 17; 22; 7; 12; 17; 22; 7; 12; 17; 22; 7; 12; 17; 22;
    5; 9; 14; 20; 5; 9; 14; 20; 5; 9; 14; 20; 5; 9; 14; 20;
    4; 11; 16; 23; 4; 11; 16; 23; 4; 11; 16; 23; 4; 11; 16; 23;
    6; 10; 15; 21; 6; 10; 15; 21; 6; 10; 15; 21; 6; 10; 15; 21 ].

Definition rotl32 (x c : Z) : Z :=
  wrap_u32 (Z.lor (Z.shiftl x c) (Z.shiftr x (32 - c))).

Definition not32 (x : Z) : Z := Z.lxor x (2 ^ 32 - 1).

(** Little-endian bytes of [x], [n] of them. *)
Fixpoint le_bytes (n : nat) (x : Z) : list Z :=
  match n with
  | O => []
  | S n' => x mod 256 :: le_bytes n' (x / 256)
  end.

Fixpoint le_word (bs : list Z) : Z :=
  match bs with
  | [] => 0
  | b :: bs' => b + 256 * le_word bs'
  end.

(** The message followed by 0x80, zeros up to 56 mod 64, and the bit
    length as a 64-bit little-endian integer. *)
Definition pad (msg : list Z) : list Z :=
  let n := Z.of_nat (length msg) in
  let zeros := Z.to_nat ((55 - n) mod 64) in
  msg ++ [128] ++ replicate zeros 0 ++ le_bytes 8 (wrap_u64 (8 * n)).

Fixpoint words (n : nat) (bs : list Z) : list Z :=
  match n with
  | O => []
  | S n' => le_word (take 4 bs) :: words n' (drop 4 bs)
  end.

Definition state : Type := Z * Z * Z * Z.

Definition init : state := (1732584193, 4023233417, 2562383102, 271733878).

Definition round (M : list Z) (st : state) (i : nat) : state :=
  let '(a, b, c, d) := st in
  let iz := Z.of_nat i in
  let '(f, g) :=
    if iz <? 16 then (Z.lor (Z.land b c) (Z.land (not32 b) d), iz)
    else if iz <? 32 then (Z.lor (Z.land d b) (Z.land (not32 d) c), (5 * iz + 1) mod 16)
    else if iz <? 48 then (Z.lxor (Z.lxor b c) d, (3 * iz + 5) mod 16)
    else (Z.lxor c (Z.lor b (not32 d)), (7 * iz) mod 16) in
  let f' := wrap_u32 (f + a + nth i K 0 + nth (Z.to_nat g) M 0) in
  (d, wrap_u32 (b + rotl32 f' (nth i shifts 0)), b, c).

Definition block (st : state) (chunk : list Z) : state :=
  let '(a0, b0, c0, d0) := st in
  let '(a, b, c, d) := foldl (round (words 16 chunk)) st (seq 0 64) in
  (wrap_u32 (a0 + a), wrap_u32 (b0 + b), wrap_u32 (c0 + c), wrap_u32 (d0 + d)).

Fixpoint blocks (n : nat) (st : state) (bs : list Z) : state :=
  match n with
  | O => st
  | S n' => blocks n' (block st (take 64 bs)) (drop 64 bs)
  end.

(** [md5.Sum(data)]: the checksum of [data], 16 bytes. *)
Definition Sum (data : list Z) : list Z :=
  let p := pad data in
  let '(a, b, c, d) := blocks (length p / 64)%nat init p in
  le_bytes 4 a ++ le_bytes 4 b ++ le_bytes 4 c ++ le_bytes 4 d.

(** The streaming hasher of [md5.New()]: [Write] appends, and
    [h.Sum(nil)] is the checksum of everything written. *)
Record digest : Type := { written : list Z }.

Definition New : digest := {| written := [] |}.
Definition Write (h : digest) (p : list Z) : digest :=
  {| written := written h ++ p |}.
Definition hSum (h : digest) : list Z := Sum (written h).

End md5.

(** ** Descriptors *)

Module scanner.

(** Modelled from the spec: the [scanner.Block] type, which the
    package imports; the spec gives a block as [{Offset, Size, Hash}]. *)
Record Block : Type := {
  Offset : Z;
  BSize : Z;
  BHash : list Z
}.

(** Modelled from the spec: the [scanner.File] type, which the package
    imports; the spec gives its fields as [Name], [Version],
    [Modified], [Flags], [Size] and [Blocks]. *)
Record File : Type := {
  Name : string;
  Flags : Z;
  Modified : Z;
  Version : Z;
  Size : Z;
  Blocks : list Block
}.

(** The zero value Go returns for a missing map entry. *)
Definition zero : File :=
  {| Name := EmptyString; Flags := 0; Modified := 0; Version := 0; Size := 0;
     Blocks := [] |}.

End scanner.

(** Modelled from the spec: [cid.LocalID], the peer id of the owning
    process, which the spec's scenarios give as 0. *)
Definition LocalID : nat := 0.

(** Modelled from the spec: [protocol.FlagDeleted], the [Deleted] bit of
    the flags field. The spec does not fix its position; bit 12 is taken
    here and nothing below depends on the choice. *)
Definition FlagDeleted : Z := Z.shiftl 1 12.

(** ** Record keys *)

Record key : Type := Key {
  Name : string;
  Version : Z;
  Modified : Z;
  Hash : list Z
}.

Definition zero_key : key :=
  {| Name := EmptyString; Version := 0; Modified := 0; Hash := replicate md5.Size 0 |}.

Global Instance key_eq_dec : EqDecision key.
Proof. solve_decision. Defined.

Global Instance key_countable : Countable key.
Proof.
  refine (inj_countable'
            (λ k, (Name k, Version k, Modified k, Hash k))
            (λ t, let '(n, v, m, h) := t in Key n v m h) _).
  by intros [].
Defined.

Record fileRecord : Type := {
  Usage : Z;
  File : scanner.File
}.

(** [keyFor]: the hasher [h] is fed every block hash, and the key's
    [Hash] field is [md5.Sum(nil)]. *)
Definition keyFor (f : scanner.File) : key :=
  let h := foldl (λ h b, md5.Write h (scanner.BHash b)) md5.New (scanner.Blocks f) in
  {| Name := scanner.Name f;
     Version := scanner.Version f;
     Modified := scanner.Modified f;
     Hash := md5.Sum [] |}.
Global Arguments keyFor : simpl never.

(** ** The version order *)

(** The byte loop of [newerThan], over the indices still to compare. *)
Fixpoint hash_newer (todo : list nat) (a b : list Z) : bool :=
  match todo with
  | [] => false
  | i :: rest =>
      if bool_decide (nth i a 0 ≠ nth i b 0)
      then bool_decide (nth i a 0 > nth i b 0)
      else hash_newer rest a b
  end.

Definition newerThan (a b : key) : bool :=
  if bool_decide (Version a ≠ Version b) then bool_decide (Version a > Version b)
  else if bool_decide (Modified a ≠ Modified b) then bool_decide (Modified a > Modified b)
  else hash_newer (seq 0 md5.Size) (Hash a) (Hash b).

(** ** [lamport.Clock] *)

Module lamport.

(** The value returned and the new [clockVal]. *)
Definition Clock (c clockVal : Z) : Z * Z :=
  if bool_decide (c > clockVal)
  then (wrap_u64 (c + 1), wrap_u64 (c + 1))
  else (wrap_u64 (clockVal + 1), wrap_u64 (clockVal + 1)).

End lamport.

(** ** The set *)

(** A slot of [remoteKey] is a Go map value: [None] is the nil map, which
    reads as empty and cannot be written. *)
Record FileSet : Type := {
  files : gmap key fileRecord;
  remoteKey : list (option (gmap string key));
  changes : list Z;
  globalAvailability : gmap string Z;
  globalKey : gmap string key
}.

Definition NewSet : FileSet :=
  {| files := ∅;
     remoteKey := replicate 64 None;
     changes := replicate 64 0;
     globalAvailability := ∅;
     globalKey := ∅ |}.

(** [m[k]] with the comma-ok flag, on a map that may be nil. *)
Definition mapget {V : Type} (m : option (gmap string V)) (k : string) : option V :=
  m ≫= (λ m', m' !! k).

(** The entries a [range] over the map visits. Go leaves the order
    open; [map_to_list] fixes one. *)
Definition range_of {V : Type} (m : option (gmap string V)) : list (string * V) :=
  match m with
  | None => []
  | Some m' => map_to_list m'
  end.

(** [arr[i]] on a fixed-size array: out of range aborts. *)
Definition index {A : Type} (arr : list A) (i : nat) : result A :=
  match arr !! i with
  | Some a => Ok a
  | None => Panic "index out of range"
  end.

(** [1 << cid] at type [bitset]. *)
Definition bit (cid : nat) : Z := wrap_u64 (Z.shiftl 1 (Z.of_nat cid)).

(** One iteration of the loop of [update]. [remFiles] is the map stored
    in slot [cid], so the write to it lands in that slot. *)
Definition update_file (cid : nat) (s : FileSet) (f : scanner.File) : result FileSet :=
  let remFiles := default None (remoteKey s !! cid) in
  let n := scanner.Name f in
  let fk := keyFor f in
  if bool_decide (mapget remFiles n = Some fk) then Ok s
  else
    match remFiles with
    | None => Panic "assignment to entry in nil map"
    | Some rf =>
        let files' :=
          match files s !! fk with
          | None => <[fk := {| Usage := 1; File := f |}]> (files s)
          | Some br =>
              <[fk := {| Usage := wrap_int (Usage br + 1); File := File br |}]> (files s)
          end in
        let gk := globalKey s !! n in
        let '(gk', ga') :=
          if bool_decide (gk = Some fk) then
            (globalKey s,
             <[n := Z.lor (default 0 (globalAvailability s !! n)) (bit cid)]>
               (globalAvailability s))
          else if newerThan fk (default zero_key gk) then
            (<[n := fk]> (globalKey s), <[n := bit cid]> (globalAvailability s))
          else (globalKey s, globalAvailability s) in
        Ok {| files := files';
              remoteKey := <[cid := Some (<[n := fk]> rf)]> (remoteKey s);
              changes := changes s;
              globalAvailability := ga';
              globalKey := gk' |}
    end.

Fixpoint update_loop (cid : nat) (fs : list scanner.File) (s : FileSet) : result FileSet :=
  match fs with
  | [] => Ok s
  | f :: fs' => s' ← update_file cid s f; update_loop cid fs' s'
  end.

Definition update (cid : nat) (fs : list scanner.File) (s : FileSet) : result FileSet :=
  _ ← index (remoteKey s) cid;
  update_loop cid fs s.

Definition bump (id : nat) (s : FileSet) : result FileSet :=
  c ← index (changes s) id;
  Ok {| files := files s;
        remoteKey := remoteKey s;
        changes := <[id := wrap_u64 (c + 1)]> (changes s);
        globalAvailability := globalAvailability s;
        globalKey := globalKey s |}.

Definition Update (id : nat) (fs : list scanner.File) (s : FileSet) : result FileSet :=
  s' ← update id fs s;
  bump id s'.

Definition equals (id : nat) (fs : list scanner.File) (s : FileSet) : result bool :=
  sl ← index (remoteKey s) id;
  if bool_decide (length (range_of sl) ≠ length fs) then Ok false
  else Ok (forallb (λ f, bool_decide (default zero_key (mapget sl (scanner.Name f)) = keyFor f)) fs).

(** One iteration of the first loop of [replace]. *)
Definition release (fls : gmap key fileRecord) (fk : key) : gmap key fileRecord :=
  match fls !! fk with
  | Some br =>
      if bool_decide (Usage br = 1) then delete fk fls
      else if bool_decide (Usage br > 1)
      then <[fk := {| Usage := wrap_int (Usage br - 1); File := File br |}]> fls
      else fls
  | None => fls
  end.

(** The scan of all slots for name [n]: newest key and its holders. *)
Definition scan_slot (n : string) (acc : key * Z) (ir : nat * option (gmap string key)) : key * Z :=
  let '(nk, na) := acc in
  match mapget ir.2 n with
  | Some rk =>
      if bool_decide (rk = nk) then (nk, Z.lor na (bit ir.1))
      else if newerThan rk nk then (rk, bit ir.1)
      else (nk, na)
  | None => (nk, na)
  end.

Definition newest (rks : list (option (gmap string key))) (n : string) : key * Z :=
  foldl (scan_slot n) (zero_key, 0) (imap pair rks).

(** One iteration of the second loop of [replace]. *)
Definition recompute (rks : list (option (gmap string key)))
    (g : gmap string key * gmap string Z) (n : string) : gmap string key * gmap string Z :=
  let '(nk, na) := newest rks n in
  if bool_decide (na ≠ 0) then (<[n := nk]> g.1, <[n := na]> g.2)
  else (delete n g.1, delete n g.2).

Definition replace (cid : nat) (fs : list scanner.File) (s : FileSet) : result FileSet :=
  old ← index (remoteKey s) cid;
  let files' := foldl release (files s) (range_of old).*2 in
  let rks := <[cid := Some ∅]> (remoteKey s) in
  let g := foldl (recompute rks) (globalKey s, globalAvailability s)
                 (range_of (Some (globalKey s))).*1 in
  update cid fs {| files := files';
                   remoteKey := rks;
                   changes := changes s;
                   globalAvailability := g.2;
                   globalKey := g.1 |}.

Definition Replace (id : nat) (fs : list scanner.File) (s : FileSet) : result FileSet :=
  if bool_decide (63 < id)%nat
  then Panic "Connection ID must be in the range 0 - 63 inclusive"
  else
    same ← equals id fs s;
    if (same : bool) then Ok s
    else s' ← bump id s; replace id fs s'.

(** The descriptor appended for a local entry [ck] missing from the new
    list, with the clock read and advanced. *)
Definition tombstone (fls : gmap key fileRecord) (ck : key) (clockVal : Z) : scanner.File * Z :=
  let cf := default scanner.zero (File <$> fls !! ck) in
  let '(v, clockVal') := lamport.Clock (scanner.Version cf) clockVal in
  ({| scanner.Name := scanner.Name cf;
      scanner.Flags := FlagDeleted;
      scanner.Modified := scanner.Modified cf;
      scanner.Version := v;
      scanner.Size := 0;
      scanner.Blocks := [] |}, clockVal').

Definition add_deleted (nf : gmap string key) (fls : gmap key fileRecord)
    (acc : list scanner.File * Z) (ck : key) : list scanner.File * Z :=
  match nf !! Name ck with
  | Some _ => acc
  | None => let '(cf, clockVal') := tombstone fls ck acc.2 in (acc.1 ++ [cf], clockVal')
  end.

(** [ReplaceWithDelete], on the set and the clock, with the order in
    which the range over the local slot visits its entries. *)
Definition ReplaceWithDelete_in (order : list (string * key)) (id : nat)
    (fs : list scanner.File) (w : FileSet * Z) : result (FileSet * Z) :=
  if bool_decide (63 < id)%nat
  then Panic "Connection ID must be in the range 0 - 63 inclusive"
  else
    same ← equals id fs w.1;
    if (same : bool) then Ok w
    else
      s' ← bump id w.1;
      let nf := foldl (λ nf f, <[scanner.Name f := keyFor f]> nf) (∅ : gmap string key) fs in
      let '(fs', clockVal') := foldl (add_deleted nf (files s')) (fs, w.2) order.*2 in
      s'' ← replace id fs' s';
      Ok (s'', clockVal').

Definition ReplaceWithDelete (id : nat) (fs : list scanner.File) (w : FileSet * Z)
    : result (FileSet * Z) :=
  ReplaceWithDelete_in (range_of (default None (remoteKey w.1 !! LocalID))) id fs w.

(** ** Queries *)

Definition record_file (s : FileSet) (k : key) : scanner.File :=
  default scanner.zero (File <$> files s !! k).

(** One iteration of the loop of [Need]: the slot of [cid] is read
    inside the loop, so an id out of range aborts only when the global
    index has an entry to visit. *)
Definition need_step (cid : nat) (s : FileSet) (acc : result (list scanner.File))
    (ng : string * key) : result (list scanner.File) :=
  fs ← acc;
  rem ← index (remoteKey s) cid;
  Ok (if newerThan ng.2 (default zero_key (mapget rem ng.1))
      then fs ++ [record_file s ng.2] else fs).

Definition Need (cid : nat) (s : FileSet) : result (list scanner.File) :=
  foldl (need_step cid s) (Ok []) (range_of (Some (globalKey s))).

Definition Have (cid : nat) (s : FileSet) : result (list scanner.File) :=
  rem ← index (remoteKey s) cid;
  Ok (map (λ nk, record_file s nk.2) (range_of rem)).

Definition Global (s : FileSet) : list scanner.File :=
  map (λ nk, record_file s nk.2) (range_of (Some (globalKey s))).

Definition Get (cid : nat) (file : string) (s : FileSet) : result scanner.File :=
  rem ← index (remoteKey s) cid;
  Ok (record_file s (default zero_key (mapget rem file))).

Definition GetGlobal (file : string) (s : FileSet) : scanner.File :=
  record_file s (default zero_key (globalKey s !! file)).

Definition Availability (name : string) (s : FileSet) : Z :=
  default 0 (globalAvailability s !! name).

Definition Changes (id : nat) (s : FileSet) : result Z :=
  index (changes s) id.

(** ** Scenario data *)

Definition file_at (name : string) (version : Z) : scanner.File :=
  {| scanner.Name := name; scanner.Flags := 0; scanner.Modified := 0;
     scanner.Version := version; scanner.Size := 0; scanner.Blocks := [] |}.

Definition a1 : scanner.File := file_at "a" 1.
Definition b1 : scanner.File := file_at "b" 1.
Definition a2 : scanner.File := file_at "a" 2.

(** A descriptor with one block, and the same descriptor without it. *)
Definition with_block : scanner.File :=
  {| scanner.Name := "a"; scanner.Flags := 0; scanner.Modified := 0;
     scanner.Version := 1; scanner.Size := 3;
     scanner.Blocks := [ {| scanner.Offset := 0; scanner.BSize := 3;
                            scanner.BHash := [97; 98; 99] |} ] |}.

(** The digest the hasher [h] of [keyFor] holds after its loop: the
    checksum of the block hashes written in order. *)
Definition block_digest (f : scanner.File) : list Z :=
  md5.hSum (foldl (λ h b, md5.Write h (scanner.BHash b)) md5.New (scanner.Blocks f)).

(** ** Reference counts and the usage invariant *)

(** The entries of one per-peer index that map to [k]. *)
Definition refs_in (m : option (gmap string key)) (k : key) : Z :=
  Z.of_nat (length (filter (λ nk, nk.2 = k) (range_of m))).

(** The (peer, name) entries, over all per-peer indices, that map to [k]. *)
Definition refcount (s : FileSet) (k : key) : Z :=
  foldr (λ m acc, refs_in m k + acc) 0 (remoteKey s).

(** Every record of the table stores its reference count, and is
    referenced. *)
Definition usage_exact (s : FileSet) : Prop :=
  ∀ k r, files s !! k = Some r → Usage r = refcount s k ∧ 1 ≤ refcount s k.

(** Whether the index [m] binds the name of [k] to [k]. *)
Definition held (m : option (gmap string key)) (k : key) : Z :=
  if bool_decide (mapget m (Name k) = Some k) then 1 else 0.

Definition holders (rks : list (option (gmap string key))) (k : key) : Z :=
  foldr (λ m acc, held m k + acc) 0 rks.

Definition usage_of (fls : gmap key fileRecord) (k : key) : Z :=
  match fls !! k with
  | Some r => Usage r
  | None => 0
  end.

(** Every index binds a name to a key of that name. *)
Definition names_ok (rks : list (option (gmap string key))) : Prop :=
  Forall (λ m, ∀ n k, mapget m n = Some k → Name k = n) rks.

(** The invariant the operations maintain. *)
Record wf (s : FileSet) : Prop := {
  wf_slots : length (remoteKey s) = 64%nat;
  wf_counters : length (changes s) = 64%nat;
  wf_names : names_ok (remoteKey s);
  wf_records : ∀ k r, files s !! k = Some r → keyFor (File r) = k ∧ 1 ≤ Usage r;
  wf_usage : ∀ k, usage_of (files s) k = holders (remoteKey s) k
}.

(** What [release] leaves of a record. *)
Definition released (o : option fileRecord) : option fileRecord :=
  match o with
  | Some br =>
      if bool_decide (Usage br = 1) then None
      else if bool_decide (Usage br > 1)
      then Some {| Usage := wrap_int (Usage br - 1); File := File br |}
      else Some br
  | None => None
  end.

(** ** Disciplined use *)

(** The list gives each name one key. *)
Definition one_key_per_name (fs : list scanner.File) : Prop :=
  ∀ f g, f ∈ fs → g ∈ fs → scanner.Name f = scanner.Name g → keyFor f = keyFor g.

(** No descriptor of the list rebinds a name of the index to another key. *)
Definition adds_only (m : gmap string key) (fs : list scanner.File) : Prop :=
  ∀ f, f ∈ fs → m !! scanner.Name f = None ∨ m !! scanner.Name f = Some (keyFor f).

(** A public operation that returns, on lists that give each name one
    key, [Update] only adding names to the peer or repeating its
    bindings. [ReplaceWithDelete] may visit the local entries in any
    order and may find the clock at any value. *)
Inductive step : FileSet → FileSet → Prop :=
| step_Update id fs s s' :
    one_key_per_name fs →
    (∀ m, remoteKey s !! id = Some (Some m) → adds_only m fs) →
    Update id fs s = Ok s' →
    step s s'
| step_Replace id fs s s' :
    one_key_per_name fs →
    Replace id fs s = Ok s' →
    step s s'
| step_ReplaceWithDelete order id fs s clockVal s' clockVal' :
    one_key_per_name fs →
    order ≡ₚ range_of (default None (remoteKey s !! LocalID)) →
    ReplaceWithDelete_in order id fs (s, clockVal) = Ok (s', clockVal') →
    step s s'.

(** The set after [Replace(0, [a@1])] and [Update(0, [a@2])]. *)
Definition rebound : result FileSet :=
  s ← Replace 0 [a1] NewSet; Update 0 [a2] s.

(** The set after [Replace(0, [a@1, b@1])] and [ReplaceWithDelete(0, [a@2])]. *)
Definition shrunk : result (FileSet * Z) :=
  s ← Replace 0 [a1; b1] NewSet; ReplaceWithDelete 0 [a2] (s, 0).

Definition installed_set : FileSet :=
  match Replace 0 [a1; b1] NewSet with Ok s => s | Panic _ => NewSet end.

Definition rebound_set : FileSet :=
  match rebound with Ok s => s | Panic _ => NewSet end.

Definition shrunk_set : FileSet :=
  match shrunk with Ok w => w.1 | Panic _ => NewSet end.

(** ** Views *)

(** The index a list of descriptors describes: each name bound to the
    key of its descriptor, a later descriptor of a name over an earlier. *)
Definition index_of (fs : list scanner.File) : gmap string key :=
  foldl (λ nf f, <[scanner.Name f := keyFor f]> nf) ∅ fs.

(** What peer [id] holds for a name. *)
Definition peer_key (s : FileSet) (id : nat) (n : string) : option key :=
  mapget (default None (remoteKey s !! id)) n.

(** The set with the counter of [id] set to [c]. *)
Definition with_counter (id : nat) (c : Z) (s : FileSet) : FileSet :=
  {| files := files s;
     remoteKey := remoteKey s;
     changes := <[id := c]> (changes s);
     globalAvailability := globalAvailability s;
     globalKey := globalKey s |}.

(** The set after [Replace(0, [a@1, b@1])] and [Replace(1, [a@1, b@1])]. *)
Definition both_set : FileSet :=
  match Replace 1 [a1; b1] installed_set with Ok s => s | Panic _ => NewSet end.

(** ** The puller's choice of a peer *)

(** One iteration of the loop of [leastBusyNode]; [get] stands for
    [cm.Get] of the [cid.Map], which the package imports. *)
Definition least_busy_step (m : gmap string Z) (availability : Z) (get : string → nat)
    (acc : Z * string) (node : string) : Z * string :=
  let id := get node in
  if bool_decide (id = LocalID) then acc
  else
    let usage := default 0 (m !! node) in
    if bool_decide (Z.land availability (bit id) ≠ 0) then
      if bool_decide (usage < acc.1) then (usage, node) else acc
    else acc.

(** [activityMap.leastBusyNode], on the activity map; [names] stands for
    [cm.Names()]. The map with the chosen counter advanced, and the
    chosen name. *)
Definition leastBusyNode (m : gmap string Z) (availability : Z) (names : list string)
    (get : string → nat) : gmap string Z * string :=
  let selected := (foldl (least_busy_step m availability get)
                         (2 ^ 32 - 1, EmptyString) names).2 in
  (<[selected := wrap_int (default 0 (m !! selected) + 1)]> m, selected).

Definition decrease (m : gmap string Z) (node : string) : gmap string Z :=
  <[node := wrap_int (default 0 (m !! node) - 1)]> m.

(** A peer [leastBusyNode] may choose: known, not the local one, and
    in the availability mask. *)
Definition eligible (availability : Z) (names : list string) (get : string → nat)
    (node : string) : Prop :=
  node ∈ names ∧ get node ≠ LocalID ∧ Z.land availability (bit (get node)) ≠ 0.

(** ** The global view *)

(** The global entry of a name, against what the peers hold for it:
    some peer holds the global key, no peer holds a newer one, and the
    availability mask has the bit of a peer exactly when that peer
    holds the global key. *)
Record global_entry_ok (s : FileSet) (n : string) (gk : key) : Prop := {
  ge_held : ∃ i, peer_key s i n = Some gk;
  ge_above_zero : newerThan gk zero_key = true;
  ge_newest : ∀ i k, peer_key s i n = Some k → k = gk ∨ newerThan gk k = true;
  ge_mask : ∃ av, globalAvailability s !! n = Some av ∧ 0 ≤ av ∧ av ≠ 0
                  ∧ ∀ i : nat, Z.testbit av (Z.of_nat i) = true ↔ peer_key s i n = Some gk
}.

(** The global index against the per-peer indices: every entry is
    right, and a name without an entry is held only under keys that are
    not newer than the zero key. *)
Record global_ok (s : FileSet) : Prop := {
  go_entries : ∀ n gk, globalKey s !! n = Some gk → global_entry_ok s n gk;
  go_missing : ∀ n i k, globalKey s !! n = None → peer_key s i n = Some k →
                        newerThan k zero_key = false
}.

(** What the scan of [replace] has found after the slots [seen]. *)
Definition scanned (n : string) (seen : list (nat * option (gmap string key)))
    (acc : key * Z) : Prop :=
  (acc = (zero_key, 0)
   ∧ ∀ i m k, (i, m) ∈ seen → mapget m n = Some k → newerThan k zero_key = false)
  ∨ (acc.2 ≠ 0 ∧ 0 ≤ acc.2
     ∧ newerThan acc.1 zero_key = true
     ∧ (∃ i m, (i, m) ∈ seen ∧ mapget m n = Some acc.1)
     ∧ (∀ i m k, (i, m) ∈ seen → mapget m n = Some k →
                 k = acc.1 ∨ newerThan acc.1 k = true)
     ∧ ∀ j : nat, Z.testbit acc.2 (Z.of_nat j) = true
                  ↔ ∃ m, (j, m) ∈ seen ∧ mapget m n = Some acc.1).

(** The entry the second loop of [replace] leaves for a name it visits. *)
Definition recomputed (rks : list (option (gmap string key))) (n : string)
    : option (key * Z) :=
  let r := newest rks n in
  if bool_decide (r.2 ≠ 0) then Some r else None.

(** A descriptor of version 0 with a modification time before the epoch. *)
Definition early : scanner.File :=
  {| scanner.Name := "e"; scanner.Flags := 0; scanner.Modified := -1;
     scanner.Version := 0; scanner.Size := 0; scanner.Blocks := [] |}.

(** The set after [Replace(0, [e])]. *)
Definition early_set : FileSet :=
  match Replace 0 [early] NewSet with Ok s => s | Panic _ => NewSet end.

(** * Properties *)

Example md5_empty :
  md5.Sum [] = [212; 29; 140; 217; 143; 0; 178; 4; 233; 128; 9; 152; 236; 248; 66; 126].
Proof. vm_compute. reflexivity. Qed.

Example md5_abc :
  md5.Sum [97; 98; 99]
  = [144; 1; 80; 152; 60; 210; 79; 176; 214; 150; 63; 125; 40; 225; 127; 114].
Proof. vm_compute. reflexivity. Qed.

Example md5_two_blocks :
  md5.Sum (concat (replicate 8 [49; 50; 51; 52; 53; 54; 55; 56; 57; 48]))
  = [87; 237; 244; 162; 43; 227; 201; 85; 172; 73; 218; 46; 33; 7; 182; 122].
Proof. vm_compute. reflexivity. Qed.

(** ** Key derivation *)

Lemma written_blocks (bs : list scanner.Block) (h : md5.digest) :
  md5.written (foldl (λ h b, md5.Write h (scanner.BHash b)) h bs)
  = md5.written h ++ concat (scanner.BHash <$> bs).
Proof.
  revert h. induction bs as [|b bs IH]; intros h; simpl.
  - by rewrite app_nil_r.
  - rewrite IH. simpl. by rewrite <- app_assoc.
Qed.

Lemma block_digest_concat (f : scanner.File) :
  block_digest f = md5.Sum (concat (scanner.BHash <$> scanner.Blocks f)).
Proof. unfold block_digest, md5.hSum. by rewrite written_blocks. Qed.

Lemma keyFor_Hash (f : scanner.File) : Hash (keyFor f) = md5.Sum [].
Proof. reflexivity. Qed.

Lemma keyFor_Name (f : scanner.File) : Name (keyFor f) = scanner.Name f.
Proof. reflexivity. Qed.

Lemma keyFor_eq_iff (f g : scanner.File) :
  keyFor f = keyFor g ↔
  scanner.Name f = scanner.Name g ∧ scanner.Version f = scanner.Version g
  ∧ scanner.Modified f = scanner.Modified g.
Proof.
  split.
  - intros H. split; [exact (f_equal Name H)|].
    split; [exact (f_equal Version H)|exact (f_equal Modified H)].
  - intros (Hn & Hv & Hm). unfold keyFor. rewrite Hn, Hv, Hm. reflexivity.
Qed.

(** C1, at a failing input: the descriptor [with_block] and the same
    descriptor without its block differ in their block lists and in the
    digest of their block hashes, and [keyFor] gives them one key. The
    [Hash] field is the checksum of the empty input whatever the blocks. *)
Theorem keyFor_ignores_blocks :
  scanner.Blocks with_block ≠ scanner.Blocks a1
  ∧ block_digest with_block ≠ block_digest a1
  ∧ keyFor with_block = keyFor a1
  ∧ Hash (keyFor with_block) = md5.Sum [].
Proof.
  split; [discriminate|]. split; [|split; reflexivity].
  vm_compute. intros H. by injection H.
Qed.

(** ** The first scenario *)

(** C2, at the failing input: on the set [NewSet] returns, every slot
    of [remoteKey] is the nil map, and the first write of [update]
    aborts. *)
Theorem Update_on_NewSet_panics :
  remoteKey NewSet !! 0%nat = Some None
  ∧ Update 0 [a1; b1] NewSet = Panic "assignment to entry in nil map".
Proof. split; vm_compute; reflexivity. Qed.

(** [replace] installs a map in the slot before it calls [update], and
    the same two lists given to [Replace] produce what the scenario
    expects. *)
Lemma scenario_with_Replace :
  (s1 ← Replace 0 [a1; b1] NewSet;
   s2 ← Replace 1 [a1; b1] s1;
   Ok (Availability "a" s2, Availability "b" s2,
       scanner.Version (GetGlobal "a" s2), scanner.Version (GetGlobal "b" s2),
       Need 0 s2, Need 1 s2, Changes 0 s2, Changes 1 s2))
  = Ok (3, 3, 1, 1, Ok [], Ok [], Ok 1, Ok 1).
Proof. vm_compute. reflexivity. Qed.

(** ** Arithmetic and list facts *)

Lemma wrap_int_small (x : Z) : -2 ^ 63 ≤ x < 2 ^ 63 → wrap_int x = x.
Proof. intros H. unfold wrap_int. rewrite Z.mod_small; lia. Qed.

Lemma held_bounds (m : option (gmap string key)) (k : key) : 0 ≤ held m k ≤ 1.
Proof. unfold held. case_bool_decide; lia. Qed.

Lemma holders_bounds (rks : list (option (gmap string key))) (k : key) :
  0 ≤ holders rks k ≤ Z.of_nat (length rks).
Proof.
  induction rks as [|m rks IH]; simpl; [lia|].
  pose proof (held_bounds m k). lia.
Qed.

Lemma holders_insert (rks : list (option (gmap string key))) (i : nat)
    (old new : option (gmap string key)) (k : key) :
  rks !! i = Some old →
  holders (<[i := new]> rks) k = holders rks k - held old k + held new k.
Proof.
  revert i. induction rks as [|m rks IH]; intros [|i] H; simplify_eq/=.
  - lia.
  - rewrite (IH _ H). lia.
Qed.

Lemma names_ok_insert (rks : list (option (gmap string key))) (i : nat)
    (new : option (gmap string key)) :
  names_ok rks →
  (∀ n k, mapget new n = Some k → Name k = n) →
  names_ok (<[i := new]> rks).
Proof. intros H Hnew. by apply Forall_insert. Qed.

Lemma names_ok_lookup (rks : list (option (gmap string key))) (i : nat)
    (m : option (gmap string key)) (n : string) (k : key) :
  names_ok rks → rks !! i = Some m → mapget m n = Some k → Name k = n.
Proof.
  intros H Hi. unfold names_ok in H. rewrite Forall_lookup in H.
  exact (H i m Hi n k).
Qed.

(** ** Counting entries *)

Lemma refs_in_held (m : option (gmap string key)) (k : key) :
  (∀ n k', mapget m n = Some k' → Name k' = n) →
  refs_in m k = held m k.
Proof.
  unfold refs_in, held. destruct m as [m|]; simpl; [|done].
  induction m as [|i x m Hi Hfirst IH] using map_first_key_ind; intros Hn.
  - rewrite map_to_list_empty, lookup_empty. by rewrite bool_decide_eq_false_2.
  - rewrite map_to_list_insert_first_key by done.
    rewrite filter_cons. simpl.
    assert (Hm : ∀ n k', m !! n = Some k' → Name k' = n).
    { intros n k' Hk. apply Hn. rewrite lookup_insert_ne; [done|].
      intros ->. congruence. }
    specialize (IH Hm).
    pose proof (Hn i x (lookup_insert_eq m i x)) as Hx.
    destruct (decide (x = k)) as [->|Hxk]; simpl.
    + rewrite Hx, lookup_insert_eq, bool_decide_eq_true_2 by done.
      rewrite Hx, Hi, bool_decide_eq_false_2 in IH by done. lia.
    + destruct (decide (Name k = i)) as [<-|Hne].
      * rewrite lookup_insert_eq, bool_decide_eq_false_2 by congruence.
        rewrite Hi, bool_decide_eq_false_2 in IH by done. lia.
      * rewrite lookup_insert_ne by done. done.
Qed.

Lemma refcount_holders (s : FileSet) (k : key) :
  names_ok (remoteKey s) → refcount s k = holders (remoteKey s) k.
Proof.
  unfold refcount, names_ok. induction 1 as [|m rks Hm _ IH]; simpl; [done|].
  by rewrite IH, refs_in_held.
Qed.

Lemma wf_usage_exact (s : FileSet) : wf s → usage_exact s.
Proof.
  intros [_ _ Hn Hr Hu] k r Hk.
  rewrite refcount_holders by done. rewrite <- Hu. unfold usage_of. rewrite Hk.
  split; [done|]. by apply (Hr k r).
Qed.

(** ** [update] keeps the invariant when it only adds *)

Lemma held_insert_other (rf : gmap string key) (n : string) (fk k : key) :
  rf !! n = None → k ≠ fk →
  held (Some (<[n := fk]> rf)) k = held (Some rf) k.
Proof.
  intros Hn Hk. unfold held. simpl.
  destruct (decide (Name k = n)) as [->|Hne].
  - rewrite lookup_insert_eq, Hn.
    rewrite !bool_decide_eq_false_2; [done|congruence|congruence].
  - by rewrite lookup_insert_ne.
Qed.

Lemma update_file_adds (cid : nat) (s : FileSet) (f : scanner.File)
    (rf : gmap string key) :
  wf s →
  remoteKey s !! cid = Some (Some rf) →
  rf !! scanner.Name f = None ∨ rf !! scanner.Name f = Some (keyFor f) →
  ∃ s', update_file cid s f = Ok s' ∧ wf s'
        ∧ remoteKey s' !! cid = Some (Some (<[scanner.Name f := keyFor f]> rf)).
Proof.
  intros Hwf Hslot Hadd. unfold update_file. rewrite Hslot. simpl.
  destruct Hadd as [Hnone|Hsome].
  2:{ rewrite bool_decide_eq_true_2 by done. exists s.
      split; [done|]. split; [done|]. by rewrite insert_id. }
  rewrite bool_decide_eq_false_2 by (rewrite Hnone; done).
  match goal with
  | |- context [let '(_, _) := ?X in _] => destruct X as [gk' ga']
  end.
  eexists. split; [reflexivity|].
  destruct Hwf as [Hlen Hch Hnames Hrec Husage].
  assert (Hlt : (cid < length (remoteKey s))%nat) by (by eapply lookup_lt_Some).
  split; [|simpl; by rewrite list_lookup_insert_eq].
  pose proof (holders_bounds (remoteKey s) (keyFor f)) as Hb.
  assert (Hheld : held (Some rf) (keyFor f) = 0).
  { unfold held. simpl. rewrite ?keyFor_Name, Hnone. by rewrite bool_decide_eq_false_2. }
  assert (Hheld' : held (Some (<[scanner.Name f := keyFor f]> rf)) (keyFor f) = 1).
  { unfold held. simpl. rewrite ?keyFor_Name, lookup_insert_eq.
    by rewrite bool_decide_eq_true_2. }
  pose proof (holders_insert (remoteKey s) cid (Some rf)
                (Some (<[scanner.Name f := keyFor f]> rf)) (keyFor f) Hslot) as Hins.
  pose proof (holders_bounds (<[cid := Some (<[scanner.Name f := keyFor f]> rf)]> (remoteKey s))
                (keyFor f)) as Hb'.
  rewrite length_insert in Hb'.
  constructor; simpl.
  - by rewrite length_insert.
  - done.
  - apply names_ok_insert; [done|]. simpl. intros n k.
    destruct (decide (scanner.Name f = n)) as [<-|Hne].
    + rewrite lookup_insert_eq. intros [= <-]. apply keyFor_Name.
    + rewrite lookup_insert_ne by done. intros Hk.
      by apply (names_ok_lookup (remoteKey s) cid (Some rf) n k).
  - intros k r. destruct (files s !! keyFor f) as [br|] eqn:Hfk.
    + destruct (decide (keyFor f = k)) as [<-|Hne].
      * rewrite lookup_insert_eq. intros [= <-]. simpl.
        destruct (Hrec _ _ Hfk) as [Hkf Hpos]. split; [done|].
        specialize (Husage (keyFor f)). unfold usage_of in Husage.
        rewrite Hfk in Husage. rewrite wrap_int_small; lia.
      * rewrite lookup_insert_ne by done. apply Hrec.
    + destruct (decide (keyFor f = k)) as [<-|Hne].
      * rewrite lookup_insert_eq. intros [= <-]. simpl. split; [done|lia].
      * rewrite lookup_insert_ne by done. apply Hrec.
  - intros k. destruct (decide (k = keyFor f)) as [->|Hne].
    + rewrite Hins, Hheld, Hheld'. specialize (Husage (keyFor f)).
      unfold usage_of in *. destruct (files s !! keyFor f) as [br|] eqn:Hfk.
      * rewrite lookup_insert_eq. simpl. rewrite wrap_int_small; lia.
      * rewrite lookup_insert_eq. simpl. lia.
    + rewrite (holders_insert _ _ _ _ _ Hslot).
      rewrite held_insert_other by done.
      rewrite <- Husage. unfold usage_of.
      destruct (files s !! keyFor f); rewrite lookup_insert_ne by done;
        destruct (files s !! k); lia.
Qed.

Lemma update_loop_adds (cid : nat) (fs : list scanner.File) :
  ∀ (s : FileSet) (rf : gmap string key),
    wf s →
    remoteKey s !! cid = Some (Some rf) →
    adds_only rf fs →
    one_key_per_name fs →
    ∃ s', update_loop cid fs s = Ok s' ∧ wf s'.
Proof.
  induction fs as [|f fs IH]; intros s rf Hwf Hslot Hadd Hone; simpl.
  - by exists s.
  - destruct (update_file_adds cid s f rf Hwf Hslot) as (s1 & -> & Hwf1 & Hslot1).
    { apply Hadd. by left. }
    simpl. apply (IH s1 _ Hwf1 Hslot1).
    + intros g Hg. destruct (decide (scanner.Name g = scanner.Name f)) as [Heq|Hne].
      * right. rewrite Heq, lookup_insert_eq. f_equal. symmetry.
        apply Hone; [by right|by left|done].
      * rewrite lookup_insert_ne by done. apply Hadd. by right.
    + intros g h Hg Hh. apply Hone; by right.
Qed.

Lemma update_loop_nil_slot (cid : nat) (fs : list scanner.File) (s s' : FileSet) :
  remoteKey s !! cid = Some None →
  update_loop cid fs s = Ok s' →
  s' = s.
Proof.
  intros Hslot. destruct fs as [|f fs]; simpl; [congruence|].
  unfold update_file. rewrite Hslot. simpl. discriminate.
Qed.

Lemma update_wf (cid : nat) (fs : list scanner.File) (s s' : FileSet) :
  wf s →
  one_key_per_name fs →
  (∀ m, remoteKey s !! cid = Some (Some m) → adds_only m fs) →
  update cid fs s = Ok s' →
  wf s'.
Proof.
  intros Hwf Hone Hadd. unfold update, index.
  destruct (remoteKey s !! cid) as [[m|]|] eqn:Hslot; simpl; [| |discriminate].
  - destruct (update_loop_adds cid fs s m Hwf Hslot (Hadd m eq_refl) Hone)
      as (s1 & -> & Hwf1). by intros [= <-].
  - intros H. by rewrite (update_loop_nil_slot cid fs s s' Hslot H).
Qed.

Lemma bump_wf (id : nat) (s s' : FileSet) : wf s → bump id s = Ok s' → wf s'.
Proof.
  intros [Hlen Hch Hnames Hrec Husage]. unfold bump, index.
  destruct (changes s !! id) as [c|]; simpl; [|discriminate].
  intros [= <-]. constructor; simpl; try done. by rewrite length_insert.
Qed.

Lemma bump_remoteKey (id : nat) (s s' : FileSet) :
  bump id s = Ok s' → remoteKey s' = remoteKey s ∧ files s' = files s.
Proof.
  unfold bump, index. destruct (changes s !! id) as [c|]; simpl; [|discriminate].
  by intros [= <-].
Qed.

Lemma Update_wf (id : nat) (fs : list scanner.File) (s s' : FileSet) :
  wf s →
  one_key_per_name fs →
  (∀ m, remoteKey s !! id = Some (Some m) → adds_only m fs) →
  Update id fs s = Ok s' →
  wf s'.
Proof.
  intros Hwf Hone Hadd. unfold Update.
  destruct (update id fs s) as [s1|msg] eqn:Hup; simpl; [|discriminate].
  apply bump_wf. by eapply update_wf.
Qed.

(** ** The first loop of [replace] *)

Lemma release_lookup (fls : gmap key fileRecord) (fk k : key) :
  release fls fk !! k = if decide (k = fk) then released (fls !! k) else fls !! k.
Proof.
  unfold release, released. destruct (decide (k = fk)) as [->|Hne].
  - destruct (fls !! fk) as [br|] eqn:Hfk; [|done].
    repeat case_bool_decide;
      rewrite ?lookup_delete_eq, ?lookup_insert_eq; done.
  - destruct (fls !! fk) as [br|] eqn:Hfk; [|done].
    repeat case_bool_decide;
      rewrite ?lookup_delete_ne, ?lookup_insert_ne by done; done.
Qed.

Lemma release_all_lookup (ks : list key) :
  ∀ (fls : gmap key fileRecord) (k : key),
    NoDup ks →
    foldl release fls ks !! k
    = if decide (k ∈ ks) then released (fls !! k) else fls !! k.
Proof.
  induction ks as [|a ks IH]; intros fls k Hnd; simpl.
  - done.
  - apply NoDup_cons in Hnd as [Ha Hnd]. rewrite IH by done.
    rewrite !release_lookup.
    destruct (decide (k ∈ ks)) as [Hin|Hnin].
    + rewrite (decide_True (P := k ∈ a :: ks)) by (by right).
      rewrite decide_False; [done|]. by intros ->.
    + destruct (decide (k = a)) as [->|Hne].
      * rewrite (decide_True (P := a ∈ a :: ks)) by (by left). done.
      * rewrite (decide_False (P := k ∈ a :: ks)); [done|].
        intros [?|?]%elem_of_cons; done.
Qed.

(** The order of the visits does not matter to the result. *)
Lemma release_comm (fls : gmap key fileRecord) (a b : key) :
  release (release fls a) b = release (release fls b) a.
Proof.
  apply map_eq. intros k. rewrite !release_lookup.
  repeat case_decide; done.
Qed.

Lemma release_all_permutation (ks ks' : list key) (fls : gmap key fileRecord) :
  ks ≡ₚ ks' → foldl release fls ks = foldl release fls ks'.
Proof.
  intros H. revert fls. induction H as [|a ks ks' _ IH|a b ks|ks1 ks2 ks3 _ IH1 _ IH2];
    intros fls; simpl.
  - done.
  - apply IH.
  - by rewrite release_comm.
  - by rewrite IH1.
Qed.

Lemma range_keys_names (m : option (gmap string key)) :
  (∀ n k, mapget m n = Some k → Name k = n) →
  (range_of m).*1 = Name <$> (range_of m).*2.
Proof.
  intros Hn. destruct m as [m|]; simpl; [|done].
  rewrite <- list_fmap_compose. apply Forall_fmap_ext, Forall_forall.
  intros [n k] Hin%elem_of_map_to_list. simpl. symmetry. by apply Hn.
Qed.

Lemma range_keys_NoDup (m : option (gmap string key)) :
  (∀ n k, mapget m n = Some k → Name k = n) →
  NoDup (Name <$> (range_of m).*2).
Proof.
  intros Hn. rewrite <- range_keys_names by done.
  destruct m as [m|]; simpl; [apply NoDup_fst_map_to_list|constructor].
Qed.

Lemma held_keys (m : option (gmap string key)) (k : key) :
  (∀ n k', mapget m n = Some k' → Name k' = n) →
  k ∈ (range_of m).*2 ↔ held m k = 1.
Proof.
  intros Hn. unfold held. destruct m as [m|]; simpl.
  - rewrite list_elem_of_fmap. split.
    + intros ([n k'] & -> & Hin%elem_of_map_to_list). simpl.
      rewrite (Hn n k' Hin). by rewrite bool_decide_eq_true_2.
    + case_bool_decide as Hk; [|done]. intros _.
      exists (Name k, k). split; [done|]. by apply elem_of_map_to_list.
  - split; [by intros ?%elem_of_nil|done].
Qed.

Lemma held_le_holders (rks : list (option (gmap string key))) (i : nat)
    (m : option (gmap string key)) (k : key) :
  rks !! i = Some m → held m k ≤ holders rks k.
Proof.
  intros Hi. pose proof (holders_insert rks i m None k Hi) as H.
  pose proof (holders_bounds (<[i := None]> rks) k). unfold held in H at 2.
  simpl in H. lia.
Qed.

(** The state [replace] hands to [update]: usage released, slot
    cleared, whatever the second loop made of the global view. *)
Lemma replace_cleared_wf (cid : nat) (s : FileSet) (old : option (gmap string key))
    (gk : gmap string key) (ga : gmap string Z) :
  wf s →
  remoteKey s !! cid = Some old →
  wf {| files := foldl release (files s) (range_of old).*2;
        remoteKey := <[cid := Some ∅]> (remoteKey s);
        changes := changes s;
        globalAvailability := ga;
        globalKey := gk |}.
Proof.
  intros [Hlen Hch Hnames Hrec Husage] Hslot.
  assert (Hold : ∀ n k, mapget old n = Some k → Name k = n).
  { intros n k. by apply (names_ok_lookup (remoteKey s) cid). }
  assert (Hnd : NoDup (range_of old).*2).
  { eapply NoDup_fmap_1, range_keys_NoDup, Hold. }
  assert (Hbound : ∀ k, holders (remoteKey s) k ≤ 64).
  { intros k. pose proof (holders_bounds (remoteKey s) k). lia. }
  constructor; simpl.
  - by rewrite length_insert.
  - done.
  - apply names_ok_insert; [done|]. simpl. intros n k. by rewrite lookup_empty.
  - intros k r. rewrite release_all_lookup by done.
    case_decide; [|apply Hrec].
    destruct (files s !! k) as [br|] eqn:Hk; simpl; [|done].
    destruct (Hrec k br Hk) as [Hkey Hpos].
    specialize (Husage k). unfold usage_of in Husage. rewrite Hk in Husage.
    specialize (Hbound k).
    repeat case_bool_decide; [done| |by intros [= <-]].
    intros [= <-]. simpl. split; [done|]. rewrite wrap_int_small; lia.
  - intros k. rewrite (holders_insert _ _ _ _ _ Hslot).
    pose proof (held_le_holders _ _ _ k Hslot) as Hle.
    pose proof (held_bounds old k) as Hb.
    pose proof (held_keys old k Hold) as Hin.
    specialize (Husage k). specialize (Hbound k).
    unfold held at 2. simpl. rewrite lookup_empty.
    rewrite bool_decide_eq_false_2 by done.
    unfold usage_of in *. rewrite release_all_lookup by done.
    case_decide as Hk.
    + apply Hin in Hk. destruct (files s !! k) as [br|] eqn:Hfk; simpl; [|lia].
      destruct (Hrec k br Hfk) as [_ Hpos].
      repeat case_bool_decide; simpl; [lia| |lia].
      rewrite wrap_int_small; lia.
    + assert (held old k = 0) as ->.
      { destruct (decide (held old k = 1)) as [H1|H1]; [|lia]. by apply Hin in H1. }
      destruct (files s !! k); lia.
Qed.

Lemma replace_wf (cid : nat) (fs : list scanner.File) (s s' : FileSet) :
  wf s → one_key_per_name fs → replace cid fs s = Ok s' → wf s'.
Proof.
  intros Hwf Hone. unfold replace, index.
  destruct (remoteKey s !! cid) as [old|] eqn:Hslot; simpl; [|discriminate].
  apply update_wf; [by apply replace_cleared_wf|done|].
  simpl. intros m Hm. rewrite list_lookup_insert_eq in Hm.
  - injection Hm as <-. intros f _. left. apply lookup_empty.
  - by eapply lookup_lt_Some.
Qed.

Lemma Replace_wf (id : nat) (fs : list scanner.File) (s s' : FileSet) :
  wf s → one_key_per_name fs → Replace id fs s = Ok s' → wf s'.
Proof.
  intros Hwf Hone. unfold Replace. case_bool_decide; [discriminate|].
  destruct (equals id fs s) as [[|]|] eqn:Heq; simpl; [by intros [= <-]| |discriminate].
  destruct (bump id s) as [s1|] eqn:Hb; simpl; [|discriminate].
  apply replace_wf; [by eapply bump_wf|done].
Qed.

(** ** The descriptors [ReplaceWithDelete] appends *)

Lemma NoDup_fmap_eq {A B : Type} (h : A → B) (l : list A) (x y : A) :
  NoDup (h <$> l) → x ∈ l → y ∈ l → h x = h y → x = y.
Proof.
  induction l as [|a l IH]; simpl; [by intros _ ?%elem_of_nil|].
  intros [Ha Hnd]%NoDup_cons [->|Hx]%elem_of_cons [->|Hy]%elem_of_cons Heq.
  - done.
  - exfalso. apply Ha. rewrite Heq. by apply list_elem_of_fmap_2.
  - exfalso. apply Ha. rewrite <- Heq. by apply list_elem_of_fmap_2.
  - by apply IH.
Qed.

Lemma new_names_lookup_None (fs : list scanner.File) :
  ∀ (nf0 : gmap string key) (n : string),
    foldl (λ nf f, <[scanner.Name f := keyFor f]> nf) nf0 fs !! n = None
    ↔ nf0 !! n = None ∧ n ∉ scanner.Name <$> fs.
Proof.
  induction fs as [|f fs IH]; intros nf0 n; simpl.
  - split; [|by intros [? _]]. intros H. split; [done|]. apply not_elem_of_nil.
  - rewrite IH, lookup_insert_None, not_elem_of_cons. split.
    + intros [[? ?] ?]. by repeat split.
    + intros [? [? ?]]. by repeat split.
Qed.

Lemma tombstone_Name (fls : gmap key fileRecord) (ck : key) (clockVal : Z) :
  scanner.Name (tombstone fls ck clockVal).1
  = scanner.Name (default scanner.zero (File <$> fls !! ck)).
Proof. unfold tombstone. by destruct (lamport.Clock _ _). Qed.

Lemma add_deleted_all (nf : gmap string key) (fls : gmap key fileRecord) (ks : list key) :
  ∀ acc : list scanner.File * Z,
    (∀ ck, ck ∈ ks →
           scanner.Name (default scanner.zero (File <$> fls !! ck)) = Name ck) →
    NoDup (Name <$> ks) →
    ∃ T, (foldl (add_deleted nf fls) acc ks).1 = acc.1 ++ T
         ∧ NoDup (scanner.Name <$> T)
         ∧ ∀ t, t ∈ T → nf !! scanner.Name t = None ∧ scanner.Name t ∈ Name <$> ks.
Proof.
  induction ks as [|a ks IH]; intros acc Hname Hnd.
  - exists []. simpl. rewrite app_nil_r. split; [done|]. split; [constructor|].
    by intros t ?%elem_of_nil.
  - rewrite fmap_cons in Hnd. apply NoDup_cons in Hnd as [Ha Hnd].
    assert (Hname' : ∀ ck, ck ∈ ks →
              scanner.Name (default scanner.zero (File <$> fls !! ck)) = Name ck).
    { intros ck Hck. apply Hname. by right. }
    simpl. destruct (nf !! Name a) as [k|] eqn:Hnf.
    + replace (add_deleted nf fls acc a) with acc
        by (unfold add_deleted; by rewrite Hnf).
      destruct (IH acc Hname' Hnd) as (T & HT & HndT & Hmem).
      exists T. split; [done|]. split; [done|].
      intros t Ht. destruct (Hmem t Ht) as [? ?]. split; [done|]. by right.
    + pose proof (tombstone_Name fls a acc.2) as Hcf.
      destruct (tombstone fls a acc.2) as [cf c'] eqn:Htomb. simpl in Hcf.
      rewrite (Hname a) in Hcf by (by left).
      replace (add_deleted nf fls acc a) with (acc.1 ++ [cf], c')
        by (unfold add_deleted; by rewrite Hnf, Htomb).
      destruct (IH (acc.1 ++ [cf], c') Hname' Hnd) as (T & HT & HndT & Hmem).
      exists (cf :: T). split; [|split].
      * rewrite HT. simpl. by rewrite <- app_assoc.
      * rewrite fmap_cons. apply NoDup_cons. split; [|done].
        rewrite Hcf. intros (t & Heq & Ht)%list_elem_of_fmap.
        destruct (Hmem t Ht) as [_ Hin]. apply Ha. by rewrite Heq.
      * intros t [->|Ht]%elem_of_cons.
        -- rewrite Hcf. split; [done|]. by left.
        -- destruct (Hmem t Ht) as [? ?]. split; [done|]. by right.
Qed.

Lemma one_key_per_name_app (fs T : list scanner.File) :
  one_key_per_name fs →
  NoDup (scanner.Name <$> T) →
  (∀ t, t ∈ T → scanner.Name t ∉ scanner.Name <$> fs) →
  one_key_per_name (fs ++ T).
Proof.
  intros Hone Hnd Hnew f g [Hf|Hf]%elem_of_app [Hg|Hg]%elem_of_app Heq.
  - by apply Hone.
  - exfalso. apply (Hnew g Hg). rewrite <- Heq. by apply list_elem_of_fmap_2.
  - exfalso. apply (Hnew f Hf). rewrite Heq. by apply list_elem_of_fmap_2.
  - by rewrite (NoDup_fmap_eq scanner.Name T f g Hnd Hf Hg Heq).
Qed.

Lemma held_record (s : FileSet) (i : nat) (m : option (gmap string key)) (ck : key) :
  wf s → remoteKey s !! i = Some m → held m ck = 1 →
  scanner.Name (default scanner.zero (File <$> files s !! ck)) = Name ck.
Proof.
  intros [_ _ _ Hrec Husage] Hi Hheld.
  pose proof (held_le_holders _ _ _ ck Hi) as Hle.
  specialize (Husage ck). unfold usage_of in Husage.
  destruct (files s !! ck) as [r|] eqn:Hck; [|lia].
  simpl. destruct (Hrec ck r Hck) as [Hkey _].
  rewrite <- (keyFor_Name (File r)). by rewrite Hkey.
Qed.

Lemma ReplaceWithDelete_in_wf (order : list (string * key)) (id : nat)
    (fs : list scanner.File) (s s' : FileSet) (clockVal clockVal' : Z) :
  wf s →
  one_key_per_name fs →
  order ≡ₚ range_of (default None (remoteKey s !! LocalID)) →
  ReplaceWithDelete_in order id fs (s, clockVal) = Ok (s', clockVal') →
  wf s'.
Proof.
  intros Hwf Hone Hperm. unfold ReplaceWithDelete_in. simpl.
  case_bool_decide; [discriminate|].
  destruct (equals id fs s) as [[|]|] eqn:Heq; simpl;
    [by intros [= <- <-]| |discriminate].
  destruct (bump id s) as [s1|] eqn:Hb; simpl; [|discriminate].
  pose proof (bump_wf _ _ _ Hwf Hb) as Hwf1.
  destruct (bump_remoteKey _ _ _ Hb) as [Hrk Hfl].
  match goal with
  | |- context [foldl (add_deleted ?nf ?fls) ?acc ?ks] =>
      destruct (add_deleted_all nf fls ks acc) as (T & HT & HndT & Hmem);
      [| |destruct (foldl (add_deleted nf fls) acc ks) as [fs' c'] eqn:Hfold]
  end.
  - intros ck Hck. rewrite Hperm in Hck.
    destruct (remoteKey s !! LocalID) as [local|] eqn:Hlocal;
      [|by apply elem_of_nil in Hck].
    simpl in Hck. rewrite Hfl.
    apply (held_record s LocalID local ck Hwf Hlocal).
    apply held_keys; [|done].
    intros n k. apply (names_ok_lookup (remoteKey s) LocalID local n k); [apply Hwf|done].
  - rewrite Hperm. apply range_keys_NoDup.
    destruct (remoteKey s !! LocalID) as [local|] eqn:Hlocal; simpl; [|done].
    intros n k. apply (names_ok_lookup (remoteKey s) LocalID local n k); [apply Hwf|done].
  - simpl in HT. subst fs'.
    destruct (replace id (fs ++ T) s1) as [s2|] eqn:Hrep; simpl; [|discriminate].
    intros [= <- <-]. apply (replace_wf id (fs ++ T) s1 s2 Hwf1); [|done].
    apply one_key_per_name_app; [done|done|].
    intros t Ht. destruct (Hmem t Ht) as [Hnone _].
    by apply new_names_lookup_None in Hnone as [_ ?].
Qed.

(** ** The invariant along disciplined runs *)

Lemma holders_nil_slots (n : nat) (k : key) : holders (replicate n None) k = 0.
Proof. induction n as [|n IH]; simpl; [done|]. by rewrite IH. Qed.

Lemma NewSet_wf : wf NewSet.
Proof.
  constructor; cbn [NewSet files remoteKey changes].
  - reflexivity.
  - reflexivity.
  - apply Forall_replicate. by intros n k.
  - intros k r. by rewrite lookup_empty.
  - intros k. unfold usage_of. by rewrite lookup_empty, holders_nil_slots.
Qed.

Lemma step_wf (s s' : FileSet) : wf s → step s s' → wf s'.
Proof.
  intros Hwf Hstep. revert Hwf.
  destruct Hstep as [id fs s0 s1 Hone Hadd Hup|id fs s0 s1 Hone Hrep
                    |order id fs s0 c s1 c' Hone Hperm Hrwd]; intros Hwf.
  - by eapply Update_wf.
  - by eapply Replace_wf.
  - by eapply ReplaceWithDelete_in_wf.
Qed.

Lemma reachable_wf (s : FileSet) : rtc step NewSet s → wf s.
Proof.
  revert s. apply rtc_ind_r; [apply NewSet_wf|].
  intros s1 s2 _ Hstep IH. by apply (step_wf s1).
Qed.

Lemma distinct_names_one_key (fs : list scanner.File) :
  NoDup (scanner.Name <$> fs) → one_key_per_name fs.
Proof.
  intros Hnd f g Hf Hg Heq.
  by rewrite (NoDup_fmap_eq scanner.Name fs f g Hnd Hf Hg Heq).
Qed.

(** C3, as amended: on every set reached from [NewSet] by public
    operations that return, where each list gives every name one key and
    [Update] binds no name of the peer to a different key, every record
    of the table stores the number of (peer, name) entries that map to
    its key, and that number is at least one. *)
Theorem usage_exact_on_disciplined_runs (s : FileSet) :
  rtc step NewSet s → usage_exact s.
Proof. intros H. by apply wf_usage_exact, reachable_wf. Qed.

Lemma usage_exact_on_disciplined_runs_witness :
  rtc step NewSet shrunk_set ∧ usage_exact shrunk_set.
Proof.
  assert (Ha : one_key_per_name [a1; b1]).
  { apply distinct_names_one_key. apply (bool_decide_unpack _). vm_compute. exact I. }
  assert (Hb : one_key_per_name [a2]).
  { apply distinct_names_one_key. apply (bool_decide_unpack _). vm_compute. exact I. }
  assert (H1 : Replace 0 [a1; b1] NewSet = Ok installed_set)
    by (vm_compute; reflexivity).
  assert (H2 : ReplaceWithDelete_in
                 (range_of (default None (remoteKey installed_set !! LocalID)))
                 0 [a2] (installed_set, 0) = Ok (shrunk_set, 2))
    by (vm_compute; reflexivity).
  assert (H : rtc step NewSet shrunk_set).
  { apply (rtc_l _ _ installed_set); [exact (step_Replace 0 _ _ _ Ha H1)|].
    apply rtc_once.
    exact (step_ReplaceWithDelete _ 0 _ _ 0 _ 2 Hb (reflexivity _) H2). }
  split; [exact H|]. apply (usage_exact_on_disciplined_runs shrunk_set H).
Defined.

(** C3, as stated, fails: [Replace(0, [a@1])] and [Update(0, [a@2])]
    both return, and the record of a@1 is left with usage 1 and no
    entry that maps to it. *)
Lemma Update_rebinding_breaks_usage :
  rebound = Ok rebound_set
  ∧ files rebound_set !! keyFor a1 = Some {| Usage := 1; File := a1 |}
  ∧ refcount rebound_set (keyFor a1) = 0
  ∧ ¬ usage_exact rebound_set.
Proof.
  assert (Hrec : files rebound_set !! keyFor a1 = Some {| Usage := 1; File := a1 |})
    by (vm_compute; reflexivity).
  assert (Hcount : refcount rebound_set (keyFor a1) = 0) by (vm_compute; reflexivity).
  split; [vm_compute; reflexivity|]. split; [exact Hrec|]. split; [exact Hcount|].
  intros H. destruct (H _ _ Hrec) as [_ Hpos]. rewrite Hcount in Hpos. lia.
Qed.

(** A list that gives one name two keys does the same through [Replace]. *)
Lemma Replace_two_keys_breaks_usage :
  ∃ s, Replace 0 [a1; a2] NewSet = Ok s
       ∧ files s !! keyFor a1 = Some {| Usage := 1; File := a1 |}
       ∧ refcount s (keyFor a1) = 0.
Proof.
  exists (match Replace 0 [a1; a2] NewSet with Ok s => s | Panic _ => NewSet end).
  repeat split; vm_compute; reflexivity.
Qed.

(** ** The operations return *)

Lemma update_file_returns (cid : nat) (s : FileSet) (f : scanner.File)
    (rf : gmap string key) :
  remoteKey s !! cid = Some (Some rf) →
  ∃ s' rf', update_file cid s f = Ok s'
            ∧ remoteKey s' !! cid = Some (Some rf')
            ∧ changes s' = changes s.
Proof.
  intros Hslot. unfold update_file. rewrite Hslot. simpl.
  case_bool_decide; [by exists s, rf|].
  match goal with
  | |- context [let '(_, _) := ?X in _] => destruct X as [gk' ga']
  end.
  eexists _, _. split; [reflexivity|]. simpl. split; [|done].
  apply list_lookup_insert_eq. by eapply lookup_lt_Some.
Qed.

Lemma update_loop_returns (cid : nat) (fs : list scanner.File) :
  ∀ (s : FileSet) (rf : gmap string key),
    remoteKey s !! cid = Some (Some rf) →
    ∃ s', update_loop cid fs s = Ok s' ∧ changes s' = changes s.
Proof.
  induction fs as [|f fs IH]; intros s rf Hslot; simpl; [by exists s|].
  destruct (update_file_returns cid s f rf Hslot) as (s1 & rf1 & -> & Hslot1 & Hch1).
  simpl. destruct (IH s1 rf1 Hslot1) as (s2 & -> & Hch2).
  exists s2. split; [done|congruence].
Qed.

Lemma replace_returns (cid : nat) (fs : list scanner.File) (s : FileSet) :
  (cid < length (remoteKey s))%nat → ∃ s', replace cid fs s = Ok s'.
Proof.
  intros Hlt. unfold replace, index.
  destruct (lookup_lt_is_Some_2 _ _ Hlt) as [old ->]. simpl.
  unfold update, index. simpl. rewrite list_lookup_insert_eq by done. simpl.
  match goal with
  | |- ∃ s', update_loop cid fs ?s0 = Ok s' =>
      destruct (update_loop_returns cid fs s0 ∅) as (s' & Hs' & _)
  end.
  - simpl. by apply list_lookup_insert_eq.
  - by exists s'.
Qed.

Lemma Update_returns (id : nat) (fs : list scanner.File) (s : FileSet)
    (m : gmap string key) :
  wf s → remoteKey s !! id = Some (Some m) → ∃ s', Update id fs s = Ok s'.
Proof.
  intros Hwf Hslot. unfold Update, update, index. rewrite Hslot. simpl.
  destruct (update_loop_returns id fs s m Hslot) as (s1 & -> & Hch). simpl.
  unfold bump, index. rewrite Hch.
  assert (Hlt : (id < length (changes s))%nat).
  { rewrite (wf_counters s Hwf), <- (wf_slots s Hwf). by eapply lookup_lt_Some. }
  destruct (lookup_lt_is_Some_2 _ _ Hlt) as [c ->]. simpl. by eexists.
Qed.

Lemma equals_returns (id : nat) (fs : list scanner.File) (s : FileSet) :
  (id < length (remoteKey s))%nat → ∃ b, equals id fs s = Ok b.
Proof.
  intros Hlt. unfold equals, index.
  destruct (lookup_lt_is_Some_2 _ _ Hlt) as [sl ->]. simpl.
  case_bool_decide; by eexists.
Qed.

Lemma Replace_returns (id : nat) (fs : list scanner.File) (s : FileSet) :
  wf s → (id ≤ 63)%nat → ∃ s', Replace id fs s = Ok s'.
Proof.
  intros Hwf Hid. unfold Replace. rewrite bool_decide_eq_false_2 by lia.
  destruct (equals_returns id fs s) as [[|] ->]; simpl.
  - rewrite (wf_slots s Hwf). lia.
  - by exists s.
  - unfold bump, index.
    assert (Hlt : (id < length (changes s))%nat) by (rewrite (wf_counters s Hwf); lia).
    destruct (lookup_lt_is_Some_2 _ _ Hlt) as [c ->]. simpl.
    apply replace_returns. simpl. rewrite (wf_slots s Hwf). lia.
Qed.

Lemma ReplaceWithDelete_in_returns (order : list (string * key)) (id : nat)
    (fs : list scanner.File) (s : FileSet) (clockVal : Z) :
  wf s → (id ≤ 63)%nat →
  ∃ w, ReplaceWithDelete_in order id fs (s, clockVal) = Ok w.
Proof.
  intros Hwf Hid. unfold ReplaceWithDelete_in. simpl.
  rewrite bool_decide_eq_false_2 by lia.
  destruct (equals_returns id fs s) as [[|] ->]; simpl.
  - rewrite (wf_slots s Hwf). lia.
  - by eexists.
  - unfold bump, index.
    assert (Hlt : (id < length (changes s))%nat) by (rewrite (wf_counters s Hwf); lia).
    destruct (lookup_lt_is_Some_2 _ _ Hlt) as [c ->]. simpl.
    match goal with
    | |- context [foldl (add_deleted ?nf ?fls) ?acc ?ks] =>
        destruct (foldl (add_deleted nf fls) acc ks) as [fs' c']
    end.
    match goal with
    | |- context [replace id fs' ?s1] =>
        destruct (replace_returns id fs' s1) as [s2 ->]
    end.
    + simpl. rewrite (wf_slots s Hwf). lia.
    + simpl. by eexists.
Qed.

(** ** The second loop of [replace] does not depend on the visiting order *)

Lemma recompute_comm (rks : list (option (gmap string key)))
    (g : gmap string key * gmap string Z) (a b : string) :
  recompute rks (recompute rks g a) b = recompute rks (recompute rks g b) a.
Proof.
  destruct (decide (a = b)) as [->|Hne]; [done|].
  unfold recompute. destruct (newest rks a) as [ka na], (newest rks b) as [kb nb].
  repeat case_bool_decide; simpl; f_equal; apply map_eq; intros i;
    repeat (rewrite lookup_insert || rewrite lookup_delete);
    repeat case_decide; congruence.
Qed.

Lemma recompute_all_permutation (rks : list (option (gmap string key)))
    (ns ns' : list string) (g : gmap string key * gmap string Z) :
  ns ≡ₚ ns' → foldl (recompute rks) g ns = foldl (recompute rks) g ns'.
Proof.
  intros H. revert g. induction H as [|a ns ns' _ IH|a b ns|ns1 ns2 ns3 _ IH1 _ IH2];
    intros g; simpl.
  - done.
  - apply IH.
  - by rewrite recompute_comm.
  - by rewrite IH1.
Qed.

(** ** [newerThan] is a strict order *)

Lemma hash_newer_irrefl (todo : list nat) (a : list Z) : hash_newer todo a a = false.
Proof.
  induction todo as [|i todo IH]; simpl; [done|].
  by rewrite bool_decide_eq_false_2 by (intros H; by apply H).
Qed.

Lemma hash_newer_trans (todo : list nat) (a b c : list Z) :
  hash_newer todo a b = true → hash_newer todo b c = true → hash_newer todo a c = true.
Proof.
  induction todo as [|i todo IH]; simpl; [done|].
  destruct (decide (nth i a 0 = nth i b 0)) as [Hab|Hab],
           (decide (nth i b 0 = nth i c 0)) as [Hbc|Hbc].
  - rewrite Hab, Hbc. case_bool_decide; [done|]. exact IH.
  - rewrite Hab. case_bool_decide; [done|]. by case_bool_decide.
  - rewrite <- Hbc. case_bool_decide; [|done]. by case_bool_decide.
  - rewrite (bool_decide_eq_true_2 (nth i a 0 ≠ nth i b 0)) by done.
    rewrite (bool_decide_eq_true_2 (nth i b 0 ≠ nth i c 0)) by done.
    intros ?%bool_decide_eq_true ?%bool_decide_eq_true.
    rewrite bool_decide_eq_true_2 by lia. apply bool_decide_eq_true_2. lia.
Qed.

Lemma hash_newer_asym (todo : list nat) (a b : list Z) :
  hash_newer todo a b = true → hash_newer todo b a = false.
Proof.
  intros H. destruct (hash_newer todo b a) eqn:H'; [|done].
  pose proof (hash_newer_trans todo a b a H H') as Haa.
  by rewrite hash_newer_irrefl in Haa.
Qed.

(** If [a] is above [c], any [b] is below [a] or above [c]. *)
Lemma hash_newer_between (todo : list nat) (a b c : list Z) :
  hash_newer todo a c = true →
  hash_newer todo a b = true ∨ hash_newer todo b c = true.
Proof.
  induction todo as [|i todo IH]; simpl; [done|].
  destruct (decide (nth i a 0 = nth i b 0)) as [Hab|Hab],
           (decide (nth i b 0 = nth i c 0)) as [Hbc|Hbc].
  - rewrite Hab, Hbc. case_bool_decide; [done|]. exact IH.
  - rewrite Hab. rewrite (bool_decide_eq_true_2 (nth i b 0 ≠ nth i c 0)) by done.
    intros H. by right.
  - rewrite <- Hbc. rewrite (bool_decide_eq_true_2 (nth i a 0 ≠ nth i b 0)) by done.
    intros H. by left.
  - rewrite (bool_decide_eq_true_2 (nth i a 0 ≠ nth i b 0)) by done.
    rewrite (bool_decide_eq_true_2 (nth i b 0 ≠ nth i c 0)) by done.
    destruct (decide (nth i a 0 > nth i b 0)) as [Hgt|Hgt];
      [intros _; left; by apply bool_decide_eq_true_2|].
    destruct (decide (nth i b 0 > nth i c 0)) as [Hgt'|Hgt'];
      [intros _; right; by apply bool_decide_eq_true_2|].
    rewrite (bool_decide_eq_true_2 (nth i a 0 ≠ nth i c 0)) by lia.
    intros ?%bool_decide_eq_true. lia.
Qed.

Lemma newerThan_irrefl (a : key) : newerThan a a = false.
Proof.
  unfold newerThan. rewrite !bool_decide_eq_false_2 by (intros H; by apply H).
  apply hash_newer_irrefl.
Qed.

(** The three comparisons of [newerThan], as a proposition. *)
Lemma newerThan_spec (a b : key) :
  newerThan a b = true ↔
  Version a > Version b
  ∨ (Version a = Version b ∧ Modified a > Modified b)
  ∨ (Version a = Version b ∧ Modified a = Modified b
     ∧ hash_newer (seq 0 md5.Size) (Hash a) (Hash b) = true).
Proof.
  unfold newerThan. repeat case_bool_decide; rewrite ?bool_decide_eq_true; intuition lia.
Qed.

Lemma newerThan_trans (a b c : key) :
  newerThan a b = true → newerThan b c = true → newerThan a c = true.
Proof.
  rewrite !newerThan_spec.
  intros [?|[[? ?]|(? & ? & Hab)]] [?|[[? ?]|(? & ? & Hbc)]];
    try (left; lia); try (right; left; lia).
  right. right. repeat split; [lia|lia|]. by apply (hash_newer_trans _ _ (Hash b)).
Qed.

(** If [a] is newer than [c], any [b] is older than [a] or newer than [c]. *)
Lemma newerThan_between (a b c : key) :
  newerThan a c = true → newerThan a b = true ∨ newerThan b c = true.
Proof.
  rewrite !newerThan_spec. intros [?|[[? ?]|(? & ? & Hac)]].
  - destruct (decide (Version a > Version b)); [by left; left|]. right. left. lia.
  - destruct (decide (Version a > Version b)); [by left; left|].
    destruct (decide (Version b > Version c)); [by right; left|].
    destruct (decide (Modified a > Modified b)); [left; right; left; lia|].
    right. right. left. lia.
  - destruct (decide (Version a > Version b)); [by left; left|].
    destruct (decide (Version b > Version c)); [by right; left|].
    destruct (decide (Modified a > Modified b)); [left; right; left; lia|].
    destruct (decide (Modified b > Modified c)); [right; right; left; lia|].
    destruct (hash_newer_between _ _ (Hash b) _ Hac) as [Hh|Hh].
    + left. right. right. repeat split; [lia|lia|done].
    + right. right. right. repeat split; [lia|lia|done].
Qed.

Lemma newerThan_asym (a b : key) :
  newerThan a b = true → newerThan b a = false.
Proof.
  intros H. destruct (newerThan b a) eqn:H'; [|done].
  pose proof (newerThan_trans a b a H H') as Haa.
  by rewrite newerThan_irrefl in Haa.
Qed.

(** X1. [newerThan] never holds both ways, and never of a key with
    itself: a key newer than another is a different key, and the other
    is not newer than it. *)
Theorem newerThan_one_way (a b : key) :
  newerThan a b = true → a ≠ b ∧ newerThan b a = false.
Proof.
  intros H. split; [|by apply newerThan_asym].
  intros ->. by rewrite newerThan_irrefl in H.
Qed.

Lemma newerThan_one_way_witness :
  newerThan (keyFor a2) (keyFor a1) = true
  ∧ keyFor a2 ≠ keyFor a1 ∧ newerThan (keyFor a1) (keyFor a2) = false.
Proof.
  assert (H : newerThan (keyFor a2) (keyFor a1) = true) by (vm_compute; reflexivity).
  split; [exact H|]. exact (newerThan_one_way _ _ H).
Defined.

(** X2. [newerThan] is transitive. *)
Theorem newerThan_transitive (a b c : key) :
  newerThan a b = true → newerThan b c = true → newerThan a c = true.
Proof. apply newerThan_trans. Qed.

Lemma newerThan_transitive_witness :
  newerThan (keyFor a2) (keyFor a1) = true
  ∧ newerThan (keyFor a1) zero_key = true
  ∧ newerThan (keyFor a2) zero_key = true.
Proof.
  assert (H1 : newerThan (keyFor a2) (keyFor a1) = true) by (vm_compute; reflexivity).
  assert (H2 : newerThan (keyFor a1) zero_key = true) by (vm_compute; reflexivity).
  split; [exact H1|]. split; [exact H2|].
  exact (newerThan_transitive _ _ _ H1 H2).
Defined.

Lemma keyFor_Version (f : scanner.File) : Version (keyFor f) = scanner.Version f.
Proof. reflexivity. Qed.

Lemma keyFor_Modified (f : scanner.File) : Modified (keyFor f) = scanner.Modified f.
Proof. reflexivity. Qed.

Lemma keyFor_comparable (f g : scanner.File) :
  scanner.Name f = scanner.Name g →
  keyFor f ≠ keyFor g →
  newerThan (keyFor f) (keyFor g) = true ∨ newerThan (keyFor g) (keyFor f) = true.
Proof.
  intros Hn Hne. rewrite keyFor_eq_iff in Hne. rewrite !newerThan_spec.
  rewrite !keyFor_Version, !keyFor_Modified.
  destruct (decide (scanner.Version f = scanner.Version g)) as [Hv|Hv];
    [|destruct (decide (scanner.Version f > scanner.Version g));
      [by left; left|right; left; lia]].
  destruct (decide (scanner.Modified f = scanner.Modified g)) as [Hm|Hm];
    [by destruct Hne|].
  destruct (decide (scanner.Modified f > scanner.Modified g));
    [left; right; left; lia|right; right; left; lia].
Qed.

(** X3. Two descriptors of one name with different keys are ordered:
    the key of exactly one of them is newer than the key of the other. *)
Theorem newerThan_total_on_name (f g : scanner.File) :
  scanner.Name f = scanner.Name g →
  keyFor f ≠ keyFor g →
  (newerThan (keyFor f) (keyFor g) = true ∧ newerThan (keyFor g) (keyFor f) = false)
  ∨ (newerThan (keyFor g) (keyFor f) = true ∧ newerThan (keyFor f) (keyFor g) = false).
Proof.
  intros Hn Hne. destruct (keyFor_comparable f g Hn Hne) as [H|H]; [left|right];
    (split; [done|by apply newerThan_asym]).
Qed.

Lemma newerThan_total_on_name_witness :
  (newerThan (keyFor a1) (keyFor a2) = true ∧ newerThan (keyFor a2) (keyFor a1) = false)
  ∨ (newerThan (keyFor a2) (keyFor a1) = true ∧ newerThan (keyFor a1) (keyFor a2) = false).
Proof.
  apply (newerThan_total_on_name a1 a2); [reflexivity|].
  intros H. apply keyFor_eq_iff in H as (_ & H & _). vm_compute in H. discriminate H.
Defined.

(** ** [lamport.Clock] *)

(** X4. Below the top of the range, [Clock] returns a value above its
    argument and above the clock it found, and leaves the clock at the
    value it returned. *)
Theorem Clock_strictly_above (c clockVal : Z) :
  0 ≤ c < 2 ^ 64 - 1 → 0 ≤ clockVal < 2 ^ 64 - 1 →
  let '(v, clockVal') := lamport.Clock c clockVal in
  c < v ∧ clockVal < v ∧ clockVal' = v ∧ v < 2 ^ 64.
Proof.
  intros Hc Hv. unfold lamport.Clock, wrap_u64.
  case_bool_decide; rewrite Z.mod_small by lia; lia.
Qed.

Lemma Clock_strictly_above_witness :
  let '(v, clockVal') := lamport.Clock 1 5 in
  1 < v ∧ 5 < v ∧ clockVal' = v ∧ v < 2 ^ 64.
Proof. apply (Clock_strictly_above 1 5); lia. Defined.

(** X5. At the top of the range the clock wraps: asked for a value
    above [2^64 - 1], or found at [2^64 - 1], [Clock] returns 0. *)
Theorem Clock_wraps (c clockVal : Z) :
  0 ≤ c < 2 ^ 64 → 0 ≤ clockVal < 2 ^ 64 →
  c = 2 ^ 64 - 1 ∨ clockVal = 2 ^ 64 - 1 →
  lamport.Clock c clockVal = (0, 0).
Proof.
  intros Hc Hv Htop. unfold lamport.Clock, wrap_u64.
  case_bool_decide.
  - assert (c = 2 ^ 64 - 1) as -> by lia. reflexivity.
  - assert (clockVal = 2 ^ 64 - 1) as -> by lia. reflexivity.
Qed.

Lemma Clock_wraps_witness : lamport.Clock (2 ^ 64 - 1) 7 = (0, 0).
Proof. apply (Clock_wraps (2 ^ 64 - 1) 7); [lia|lia|by left]. Defined.

(** ** Peer ids and nil slots *)

(** X6. With an id above 63 none of the three operations returns:
    [Replace] and [ReplaceWithDelete] abort on their check, [Update] on
    the array bound. *)
Theorem peer_id_above_63_aborts (order : list (string * key)) (id : nat)
    (fs : list scanner.File) (s : FileSet) (clockVal : Z) :
  length (remoteKey s) = 64%nat → (63 < id)%nat →
  Update id fs s = Panic "index out of range"
  ∧ Replace id fs s = Panic "Connection ID must be in the range 0 - 63 inclusive"
  ∧ ReplaceWithDelete_in order id fs (s, clockVal)
    = Panic "Connection ID must be in the range 0 - 63 inclusive".
Proof.
  intros Hlen Hid. split; [|split].
  - unfold Update, update, index. by rewrite lookup_ge_None_2 by lia.
  - unfold Replace. by rewrite bool_decide_eq_true_2.
  - unfold ReplaceWithDelete_in. by rewrite bool_decide_eq_true_2.
Qed.

Lemma peer_id_above_63_aborts_witness :
  Update 64 [a1] NewSet = Panic "index out of range"
  ∧ Replace 64 [a1] NewSet = Panic "Connection ID must be in the range 0 - 63 inclusive"
  ∧ ReplaceWithDelete_in [] 64 [a1] (NewSet, 0)
    = Panic "Connection ID must be in the range 0 - 63 inclusive".
Proof. apply (peer_id_above_63_aborts [] 64 [a1] NewSet 0); [reflexivity|lia]. Defined.

(** X7. [Update] with a slot that is still the nil map aborts on its
    first descriptor, whatever the list holds. *)
Theorem Update_nil_slot_aborts (id : nat) (f : scanner.File) (fs : list scanner.File)
    (s : FileSet) :
  remoteKey s !! id = Some None →
  Update id (f :: fs) s = Panic "assignment to entry in nil map".
Proof.
  intros Hslot. unfold Update, update, index. rewrite Hslot. simpl.
  unfold update_file. rewrite Hslot. reflexivity.
Qed.

Lemma Update_nil_slot_aborts_witness :
  Update 5 [b1; a2] NewSet = Panic "assignment to entry in nil map".
Proof. apply (Update_nil_slot_aborts 5 b1 [a2] NewSet). reflexivity. Defined.

Lemma update_loop_known (id : nat) (fs : list scanner.File) (s : FileSet)
    (m : option (gmap string key)) :
  remoteKey s !! id = Some m →
  (∀ f, f ∈ fs → mapget m (scanner.Name f) = Some (keyFor f)) →
  update_loop id fs s = Ok s.
Proof.
  intros Hslot. induction fs as [|f fs IH]; intros Hknown; simpl; [done|].
  unfold update_file at 1. rewrite Hslot. simpl.
  rewrite bool_decide_eq_true_2 by (apply Hknown; by left). simpl.
  apply IH. intros g Hg. apply Hknown. by right.
Qed.

(** X8. [Update] counts even when it changes nothing: given only
    descriptors the peer already holds under the same key (or none at
    all), it leaves every table as it was and adds one to the counter. *)
Theorem Update_known_only_counts (id : nat) (fs : list scanner.File) (s : FileSet)
    (m : option (gmap string key)) (c : Z) :
  remoteKey s !! id = Some m →
  changes s !! id = Some c →
  (∀ f, f ∈ fs → mapget m (scanner.Name f) = Some (keyFor f)) →
  Update id fs s = Ok (with_counter id (wrap_u64 (c + 1)) s).
Proof.
  intros Hslot Hc Hknown. unfold Update, update, index. rewrite Hslot. simpl.
  rewrite (update_loop_known id fs s m Hslot Hknown). simpl.
  unfold bump, index. rewrite Hc. reflexivity.
Qed.

Lemma Update_known_only_counts_witness :
  Update 0 [a1] installed_set
  = Ok (with_counter 0 (wrap_u64 (1 + 1)) installed_set).
Proof.
  apply (Update_known_only_counts 0 [a1] installed_set
           (default None (remoteKey installed_set !! 0%nat)) 1).
  - vm_compute. reflexivity.
  - vm_compute. reflexivity.
  - intros f ->%list_elem_of_singleton. vm_compute. reflexivity.
Defined.

(** ** What a peer holds after [Replace] *)

Lemma update_file_slot (cid : nat) (s s' : FileSet) (f : scanner.File)
    (rf : gmap string key) :
  remoteKey s !! cid = Some (Some rf) →
  update_file cid s f = Ok s' →
  remoteKey s' = <[cid := Some (<[scanner.Name f := keyFor f]> rf)]> (remoteKey s).
Proof.
  intros Hslot. unfold update_file. rewrite Hslot. simpl.
  case_bool_decide as Hk.
  - intros [= <-]. rewrite insert_id by done. by rewrite list_insert_id.
  - match goal with
    | |- context [let '(_, _) := ?X in _] => destruct X as [gk' ga']
    end.
    by intros [= <-].
Qed.

Lemma update_loop_slot (cid : nat) (fs : list scanner.File) :
  ∀ (s s' : FileSet) (rf : gmap string key),
    remoteKey s !! cid = Some (Some rf) →
    update_loop cid fs s = Ok s' →
    remoteKey s'
    = <[cid := Some (foldl (λ nf f, <[scanner.Name f := keyFor f]> nf) rf fs)]>
        (remoteKey s).
Proof.
  induction fs as [|f fs IH]; intros s s' rf Hslot; simpl.
  - intros [= <-]. by rewrite list_insert_id.
  - destruct (update_file cid s f) as [s1|] eqn:Hf; simpl; [|discriminate].
    pose proof (update_file_slot cid s s1 f rf Hslot Hf) as H1.
    intros Hloop.
    assert (Hslot1 : remoteKey s1 !! cid = Some (Some (<[scanner.Name f := keyFor f]> rf))).
    { rewrite H1. apply list_lookup_insert_eq. by eapply lookup_lt_Some. }
    rewrite (IH s1 s' _ Hslot1 Hloop). by rewrite H1, list_insert_insert_eq.
Qed.

Lemma replace_slot (cid : nat) (fs : list scanner.File) (s s' : FileSet) :
  replace cid fs s = Ok s' →
  (cid < length (remoteKey s))%nat
  ∧ remoteKey s' = <[cid := Some (index_of fs)]> (remoteKey s).
Proof.
  unfold replace, index.
  destruct (remoteKey s !! cid) as [old|] eqn:Hslot; simpl; [|discriminate].
  unfold update, index. simpl.
  assert (Hlt : (cid < length (remoteKey s))%nat) by (by eapply lookup_lt_Some).
  rewrite list_lookup_insert_eq by done. simpl. intros Hloop. split; [done|].
  apply update_loop_slot with (rf := ∅) in Hloop.
  - simpl in Hloop. by rewrite list_insert_insert_eq in Hloop.
  - simpl. by apply list_lookup_insert_eq.
Qed.

Lemma keyFor_not_zero (f : scanner.File) : keyFor f ≠ zero_key.
Proof.
  intros H. apply (f_equal Hash) in H. rewrite keyFor_Hash in H.
  vm_compute in H. discriminate H.
Qed.

Lemma equals_true_bindings (id : nat) (fs : list scanner.File) (s : FileSet) :
  equals id fs s = Ok true →
  length (range_of (default None (remoteKey s !! id))) = length fs
  ∧ ∀ f, f ∈ fs → peer_key s id (scanner.Name f) = Some (keyFor f).
Proof.
  unfold equals, index, peer_key.
  destruct (remoteKey s !! id) as [sl|]; simpl; [|discriminate].
  case_bool_decide as Hlen; [discriminate|]. intros [= Hall].
  split; [simpl; lia|].
  intros f Hf. rewrite forallb_forall in Hall.
  specialize (Hall f (proj1 (list_elem_of_In _ _) Hf)).
  apply bool_decide_eq_true in Hall.
  destruct (mapget sl (scanner.Name f)) as [k|]; simpl in Hall; [by rewrite Hall|].
  by destruct (keyFor_not_zero f).
Qed.

Lemma index_of_lookup (fs : list scanner.File) (f : scanner.File) :
  one_key_per_name fs → f ∈ fs →
  index_of fs !! scanner.Name f = Some (keyFor f).
Proof.
  unfold index_of. induction fs as [|g fs IH] using rev_ind; intros Hone Hf.
  - by apply elem_of_nil in Hf.
  - rewrite foldl_snoc.
    destruct (decide (scanner.Name g = scanner.Name f)) as [Heq|Hne].
    + rewrite Heq, lookup_insert_eq. f_equal.
      apply Hone; [apply elem_of_app; right; by left|done|done].
    + rewrite lookup_insert_ne by done. apply IH.
      * intros x y Hx Hy. apply Hone; apply elem_of_app; by left.
      * apply elem_of_app in Hf as [Hf|Hf]; [done|].
        apply list_elem_of_singleton in Hf. by subst.
Qed.

Lemma index_of_lookup_None (fs : list scanner.File) (n : string) :
  index_of fs !! n = None ↔ n ∉ scanner.Name <$> fs.
Proof.
  unfold index_of. rewrite new_names_lookup_None, lookup_empty. split.
  - by intros [_ ?].
  - by intros ?.
Qed.

Lemma index_of_size (fs : list scanner.File) :
  NoDup (scanner.Name <$> fs) → size (index_of fs) = length fs.
Proof.
  unfold index_of. induction fs as [|g fs IH] using rev_ind; intros Hnd; [done|].
  rewrite fmap_app in Hnd. apply NoDup_app in Hnd as (Hnd & Hdisj & _).
  rewrite foldl_snoc, length_app. simpl.
  rewrite map_size_insert_None.
  - rewrite IH by done. lia.
  - apply new_names_lookup_None. split; [apply lookup_empty|].
    intros Hin. apply (Hdisj _ Hin). by left.
Qed.

(** A map that binds every name of a duplicate-free list, and has as
    many entries as the list, binds nothing else. *)
Lemma full_map_no_more (m : gmap string key) (names : list string) (n : string) :
  NoDup names → size m = length names →
  (∀ x, x ∈ names → is_Some (m !! x)) →
  n ∉ names → m !! n = None.
Proof.
  intros Hnd Hsize Hall Hn.
  assert (Hsub : (list_to_set names : gset string) ⊆ dom m).
  { intros x Hx%elem_of_list_to_set. by apply elem_of_dom, Hall. }
  assert (Heq : (list_to_set names : gset string) = dom m).
  { apply set_subseteq_size_eq; [done|].
    rewrite size_dom, size_list_to_set by done. lia. }
  apply not_elem_of_dom. rewrite <- Heq. by rewrite elem_of_list_to_set.
Qed.

(** X9. After [Replace] returns, given a list without repeated names,
    the peer holds exactly the list: a name is bound to the key of its
    descriptor, and no other name is bound. *)
Theorem Replace_installs_list (id : nat) (fs : list scanner.File) (s s' : FileSet) :
  NoDup (scanner.Name <$> fs) →
  Replace id fs s = Ok s' →
  ∀ n, peer_key s' id n = index_of fs !! n.
Proof.
  intros Hnd. unfold Replace. case_bool_decide; [discriminate|].
  destruct (equals id fs s) as [[|]|] eqn:Heq; simpl; [| |discriminate].
  - intros [= <-] n. destruct (equals_true_bindings id fs s Heq) as [Hlen Hall].
    destruct (decide (n ∈ scanner.Name <$> fs)) as [Hin|Hnin].
    + apply list_elem_of_fmap in Hin as (f & -> & Hf).
      rewrite (Hall f Hf). symmetry.
      by apply index_of_lookup; [apply distinct_names_one_key|].
    + rewrite (proj2 (index_of_lookup_None fs n) Hnin).
      unfold peer_key in *. destruct (remoteKey s !! id) as [[m|]|]; simpl; [|done|done].
      apply (full_map_no_more m (scanner.Name <$> fs) n Hnd); [| |done].
      * simpl in Hlen. by rewrite length_fmap, <- Hlen, length_map_to_list.
      * intros x (f & -> & Hf)%list_elem_of_fmap. specialize (Hall f Hf).
        simpl in Hall. by rewrite Hall.
  - destruct (bump id s) as [s1|] eqn:Hb; simpl; [|discriminate].
    intros [Hlt Hrep]%replace_slot n. unfold peer_key. rewrite Hrep.
    by rewrite list_lookup_insert_eq.
Qed.

Lemma Replace_installs_list_witness :
  peer_key installed_set 0 "a" = index_of [a1; b1] !! "a"
  ∧ peer_key installed_set 0 "c" = index_of [a1; b1] !! "c".
Proof.
  assert (Hnd : NoDup (scanner.Name <$> [a1; b1])).
  { apply (bool_decide_unpack _). vm_compute. exact I. }
  assert (Hrep : Replace 0 [a1; b1] NewSet = Ok installed_set)
    by (vm_compute; reflexivity).
  split; apply (Replace_installs_list 0 [a1; b1] NewSet installed_set Hnd Hrep).
Defined.

(** A repeated name defeats the comparison of [equals]: the list
    [a@1, a@1] is as long as the view {a@1, b@1} and agrees with it on
    every descriptor, so [Replace] takes it for the view and keeps b. *)
Lemma Replace_repeated_name_keeps_other :
  Replace 0 [a1; a1] installed_set = Ok installed_set
  ∧ peer_key installed_set 0 "b" = Some (keyFor b1).
Proof. split; vm_compute; reflexivity. Qed.

Lemma Replace_binds (id : nat) (fs : list scanner.File) (s s' : FileSet)
    (f : scanner.File) :
  one_key_per_name fs →
  Replace id fs s = Ok s' →
  f ∈ fs →
  ∃ m, remoteKey s' !! id = Some m ∧ mapget m (scanner.Name f) = Some (keyFor f).
Proof.
  intros Hone. unfold Replace. case_bool_decide; [discriminate|].
  destruct (equals id fs s) as [[|]|] eqn:Heq; simpl; [| |discriminate].
  - intros [= <-] Hf. destruct (equals_true_bindings id fs s Heq) as [_ Hall].
    specialize (Hall f Hf). unfold peer_key in Hall.
    destruct (remoteKey s !! id) as [m|]; [by exists m|done].
  - destruct (bump id s) as [s1|] eqn:Hb; simpl; [|discriminate].
    intros [Hlt Hrep]%replace_slot Hf. rewrite Hrep.
    exists (Some (index_of fs)). rewrite list_lookup_insert_eq by done.
    split; [done|]. simpl. by apply index_of_lookup.
Qed.

(** X10. [Replace] is idempotent on lists without repeated names: given
    the same list again it returns the set unchanged, counters included. *)
Theorem Replace_twice (id : nat) (fs : list scanner.File) (s s' : FileSet) :
  NoDup (scanner.Name <$> fs) →
  Replace id fs s = Ok s' →
  Replace id fs s' = Ok s'.
Proof.
  intros Hnd Hrep. pose proof Hrep as Hrep0. revert Hrep.
  unfold Replace at 1. case_bool_decide as Hid; [discriminate|].
  destruct (equals id fs s) as [[|]|] eqn:Heq; simpl; [| |discriminate].
  - by intros [= <-].
  - destruct (bump id s) as [s1|] eqn:Hb; simpl; [|discriminate].
    intros [Hlt Hslot]%replace_slot.
    unfold Replace. rewrite bool_decide_eq_false_2 by done.
    assert (equals id fs s' = Ok true) as ->; [|done].
    unfold equals, index. rewrite Hslot, list_lookup_insert_eq by done. simpl.
    rewrite length_map_to_list, index_of_size by done.
    rewrite bool_decide_eq_false_2 by (intros H; by apply H).
    f_equal. apply forallb_forall. intros f Hf%list_elem_of_In.
    apply bool_decide_eq_true_2.
    by rewrite index_of_lookup; [|apply distinct_names_one_key|].
Qed.

Lemma Replace_twice_witness :
  Replace 0 [a1; b1] installed_set = Ok installed_set.
Proof.
  apply (Replace_twice 0 [a1; b1] NewSet installed_set).
  - apply (bool_decide_unpack _). vm_compute. exact I.
  - vm_compute. reflexivity.
Defined.

Lemma held_present (s : FileSet) (i : nat) (m : option (gmap string key)) (k : key) :
  wf s → remoteKey s !! i = Some m → mapget m (Name k) = Some k →
  ∃ r, files s !! k = Some r ∧ keyFor (File r) = k.
Proof.
  intros [_ _ _ Hrec Husage] Hi Hk.
  pose proof (held_le_holders _ _ _ k Hi) as Hle.
  unfold held in Hle. rewrite bool_decide_eq_true_2 in Hle by done.
  specialize (Husage k). unfold usage_of in Husage.
  destruct (files s !! k) as [r|] eqn:Hfk; [|lia].
  exists r. split; [done|]. by apply (Hrec k r).
Qed.

(** X11. What [Replace] stores, [Get] finds: on a set reached by
    disciplined operations, after [Replace(id, fs)] returns for a list
    that gives each name one key, [Get] of the name of a descriptor of
    [fs] returns a descriptor of the same key (the same name, version
    and modification time). *)
Theorem Get_after_Replace (id : nat) (fs : list scanner.File) (s s' : FileSet)
    (f : scanner.File) :
  rtc step NewSet s →
  one_key_per_name fs →
  Replace id fs s = Ok s' →
  f ∈ fs →
  ∃ g, Get id (scanner.Name f) s' = Ok g ∧ keyFor g = keyFor f.
Proof.
  intros Hreach Hone Hrep Hf.
  assert (Hwf' : wf s') by (eapply Replace_wf; [by apply reachable_wf|done|done]).
  destruct (Replace_binds id fs s s' f Hone Hrep Hf) as (m & Hslot & Hk).
  destruct (held_present s' id m (keyFor f) Hwf' Hslot) as (r & Hr & Hkey);
    [by rewrite ?keyFor_Name|].
  exists (File r). split; [|done].
  unfold Get, index. rewrite Hslot. simpl. rewrite Hk. simpl.
  unfold record_file. by rewrite Hr.
Qed.

Lemma Get_after_Replace_witness :
  ∃ g, Get 0 (scanner.Name b1) installed_set = Ok g ∧ keyFor g = keyFor b1.
Proof.
  apply (Get_after_Replace 0 [a1; b1] NewSet installed_set b1).
  - apply rtc_refl.
  - apply distinct_names_one_key. apply (bool_decide_unpack _). vm_compute. exact I.
  - vm_compute. reflexivity.
  - right. left.
Defined.

(** ** An operation on one peer leaves the others alone *)

Lemma update_file_changes (cid : nat) (s s' : FileSet) (f : scanner.File) :
  update_file cid s f = Ok s' → changes s' = changes s.
Proof.
  unfold update_file. case_bool_decide; [by intros [= <-]|].
  destruct (default None (remoteKey s !! cid)) as [rf|]; [|discriminate].
  match goal with
  | |- context [let '(_, _) := ?X in _] => destruct X as [gk' ga']
  end.
  by intros [= <-].
Qed.

Lemma update_loop_changes (cid : nat) (fs : list scanner.File) :
  ∀ s s', update_loop cid fs s = Ok s' → changes s' = changes s.
Proof.
  induction fs as [|f fs IH]; intros s s'; simpl; [by intros [= <-]|].
  destruct (update_file cid s f) as [s1|] eqn:Hf; simpl; [|discriminate].
  intros Hloop. rewrite (IH _ _ Hloop). by eapply update_file_changes.
Qed.

Lemma update_others (cid j : nat) (fs : list scanner.File) (s s' : FileSet) :
  j ≠ cid → update cid fs s = Ok s' →
  remoteKey s' !! j = remoteKey s !! j ∧ changes s' = changes s.
Proof.
  intros Hj. unfold update, index.
  destruct (remoteKey s !! cid) as [[rf|]|] eqn:Hslot; simpl; [| |discriminate].
  - intros Hloop. split; [|by eapply update_loop_changes].
    rewrite (update_loop_slot cid fs s s' rf Hslot Hloop).
    by apply list_lookup_insert_ne.
  - intros Hloop. by rewrite (update_loop_nil_slot cid fs s s' Hslot Hloop).
Qed.

Lemma bump_others (id j : nat) (s s' : FileSet) :
  j ≠ id → bump id s = Ok s' →
  remoteKey s' = remoteKey s ∧ changes s' !! j = changes s !! j.
Proof.
  intros Hj. unfold bump, index.
  destruct (changes s !! id) as [c|]; simpl; [|discriminate].
  intros [= <-]. simpl. split; [done|]. by apply list_lookup_insert_ne.
Qed.

Lemma replace_others (cid j : nat) (fs : list scanner.File) (s s' : FileSet) :
  j ≠ cid → replace cid fs s = Ok s' →
  remoteKey s' !! j = remoteKey s !! j ∧ changes s' = changes s.
Proof.
  intros Hj. unfold replace, index.
  destruct (remoteKey s !! cid) as [old|]; simpl; [|discriminate].
  intros [Hrk Hch]%(update_others cid j); [|done]. simpl in *.
  split; [|done]. rewrite Hrk. by apply list_lookup_insert_ne.
Qed.

(** X12. An operation on peer [id] that returns leaves the index and
    the change counter of every other peer as they were. *)
Theorem other_peers_untouched (id j : nat) (fs : list scanner.File) (s s' : FileSet) :
  j ≠ id →
  Update id fs s = Ok s' ∨ Replace id fs s = Ok s'
  ∨ (∃ order c c', ReplaceWithDelete_in order id fs (s, c) = Ok (s', c')) →
  remoteKey s' !! j = remoteKey s !! j ∧ changes s' !! j = changes s !! j.
Proof.
  intros Hj [Hop|[Hop|(order & c & c' & Hop)]]; revert Hop.
  - unfold Update. destruct (update id fs s) as [s1|] eqn:Hup; simpl; [|discriminate].
    destruct (update_others id j fs s s1 Hj Hup) as [Hrk Hch].
    intros [Hrk' Hch']%(bump_others id j); [|done]. by rewrite Hrk', Hch', Hch.
  - unfold Replace. case_bool_decide; [discriminate|].
    destruct (equals id fs s) as [[|]|]; simpl; [by intros [= <-]| |discriminate].
    destruct (bump id s) as [s1|] eqn:Hb; simpl; [|discriminate].
    destruct (bump_others id j s s1 Hj Hb) as [Hrk Hch].
    intros [Hrk' Hch']%(replace_others id j); [|done]. by rewrite Hrk', Hch', Hrk.
  - unfold ReplaceWithDelete_in. simpl. case_bool_decide; [discriminate|].
    destruct (equals id fs s) as [[|]|]; simpl; [by intros [= <- <-]| |discriminate].
    destruct (bump id s) as [s1|] eqn:Hb; simpl; [|discriminate].
    destruct (bump_others id j s s1 Hj Hb) as [Hrk Hch].
    match goal with
    | |- context [foldl (add_deleted ?nf ?fls) ?acc ?ks] =>
        destruct (foldl (add_deleted nf fls) acc ks) as [fs' cv]
    end.
    destruct (replace id fs' s1) as [s2|] eqn:Hrep; simpl; [|discriminate].
    apply (replace_others id j) in Hrep as [Hrk' Hch']; [|done].
    intros [= <- <-]. by rewrite Hrk', Hch', Hrk.
Qed.

Lemma other_peers_untouched_witness :
  remoteKey both_set !! 0%nat = remoteKey installed_set !! 0%nat
  ∧ changes both_set !! 0%nat = changes installed_set !! 0%nat.
Proof.
  apply (other_peers_untouched 1 0 [a1; b1] installed_set both_set); [lia|].
  right. left. vm_compute. reflexivity.
Defined.

(** ** [leastBusyNode] *)

Lemma least_busy_loop (m : gmap string Z) (availability : Z) (get : string → nat)
    (names : list string) :
  let r := foldl (least_busy_step m availability get) (2 ^ 32 - 1, EmptyString) names in
  (∀ n, eligible availability names get n → r.1 ≤ default 0 (m !! n))
  ∧ ((r.1 = 2 ^ 32 - 1 ∧ r.2 = EmptyString)
     ∨ (eligible availability names get r.2
        ∧ default 0 (m !! r.2) = r.1 ∧ r.1 < 2 ^ 32 - 1)).
Proof.
  induction names as [|x names IH] using rev_ind.
  - simpl. split; [|by left]. intros n [Hn _]. by apply elem_of_nil in Hn.
  - rewrite foldl_snoc. simpl in IH.
    destruct (foldl (least_busy_step m availability get) (2 ^ 32 - 1, EmptyString) names)
      as [low sel]. simpl in IH. destruct IH as [Hmin Hsel].
    assert (Hold : ∀ n, eligible availability (names ++ [x]) get n → n ≠ x →
                        low ≤ default 0 (m !! n)).
    { intros n (Hin & Hl & Hav) Hne. apply Hmin. split; [|done].
      apply elem_of_app in Hin as [Hin|Hin%list_elem_of_singleton]; done. }
    assert (Hgrow : ∀ n, eligible availability names get n →
                         eligible availability (names ++ [x]) get n).
    { intros n (Hin & Hl & Hav). split; [|done]. apply elem_of_app. by left. }
    unfold least_busy_step. simpl.
    case_bool_decide as Hlocal; [|case_bool_decide as Hav; [case_bool_decide as Hlt|]];
      simpl.
    + split.
      * intros n Hn. apply Hold; [done|]. intros ->. by destruct Hn as (_ & ? & _).
      * destruct Hsel as [?|(He & ? & ?)]; [by left|right]. split; [by apply Hgrow|done].
    + split.
      * intros n Hn. destruct (decide (n = x)) as [->|Hne]; [lia|].
        specialize (Hold n Hn Hne). lia.
      * right. split; [|destruct Hsel as [[? ?]|(_ & ? & ?)]; lia].
        split; [apply elem_of_app; right; by left|done].
    + split.
      * intros n Hn. destruct (decide (n = x)) as [->|Hne]; [lia|]. by apply Hold.
      * destruct Hsel as [?|(He & ? & ?)]; [by left|right]. split; [by apply Hgrow|done].
    + split.
      * intros n Hn. apply Hold; [done|]. intros ->. by destruct Hn as (_ & _ & ?).
      * destruct Hsel as [?|(He & ? & ?)]; [by left|right]. split; [by apply Hgrow|done].
Qed.

(** X13. [leastBusyNode] chooses a least busy peer among those it may
    choose, or none: either it returns the empty name and every peer it
    might have chosen has at least [2^32 - 1] requests outstanding, or it
    returns such a peer whose count is at most that of every other. *)
Theorem leastBusyNode_least (m : gmap string Z) (availability : Z)
    (names : list string) (get : string → nat) :
  let selected := (leastBusyNode m availability names get).2 in
  (selected = EmptyString
   ∧ ∀ n, eligible availability names get n → 2 ^ 32 - 1 ≤ default 0 (m !! n))
  ∨ (eligible availability names get selected
     ∧ ∀ n, eligible availability names get n →
            default 0 (m !! selected) ≤ default 0 (m !! n)).
Proof.
  simpl. destruct (least_busy_loop m availability get names) as [Hmin Hsel].
  destruct Hsel as [[Hlow Hnone]|(He & Hu & Hlt)].
  - left. split; [done|]. intros n Hn. specialize (Hmin n Hn). lia.
  - right. split; [done|]. intros n Hn. specialize (Hmin n Hn). lia.
Qed.

(** X14. With no peer to choose, [leastBusyNode] returns the empty name
    and still counts a request against it. *)
Theorem leastBusyNode_none (m : gmap string Z) (availability : Z)
    (names : list string) (get : string → nat) :
  (∀ n, ¬ eligible availability names get n) →
  leastBusyNode m availability names get
  = (<[EmptyString := wrap_int (default 0 (m !! EmptyString) + 1)]> m, EmptyString).
Proof.
  intros Hnone. unfold leastBusyNode.
  destruct (least_busy_loop m availability get names) as [_ [[_ ->]|(He & _)]]; [done|].
  by destruct (Hnone _ He).
Qed.

Lemma leastBusyNode_none_witness :
  leastBusyNode ∅ 1 ["local"%string] (λ _, LocalID)
  = (<[EmptyString := wrap_int (default 0 ((∅ : gmap string Z) !! EmptyString) + 1)]> ∅,
     EmptyString).
Proof.
  apply (leastBusyNode_none ∅ 1 ["local"%string] (λ _, LocalID)).
  intros n (_ & Hl & _). by apply Hl.
Defined.

(** ** Availability bits *)

Lemma bit_pow (i : nat) : (i < 64)%nat → bit i = 2 ^ Z.of_nat i.
Proof.
  intros Hi. unfold bit, wrap_u64. rewrite Z.shiftl_1_l.
  apply Z.mod_small. split; [apply Z.pow_nonneg; lia|].
  apply Z.pow_lt_mono_r; lia.
Qed.

Lemma bit_testbit (i j : nat) :
  (i < 64)%nat → Z.testbit (bit i) (Z.of_nat j) = true ↔ j = i.
Proof.
  intros Hi. rewrite bit_pow by done. rewrite Z.pow2_bits_eqb by lia.
  rewrite Z.eqb_eq. lia.
Qed.

Lemma bit_pos (i : nat) : (i < 64)%nat → 0 < bit i.
Proof. intros Hi. rewrite bit_pow by done. apply Z.pow_pos_nonneg; lia. Qed.

Lemma lor_bit_testbit (av : Z) (i j : nat) :
  (i < 64)%nat →
  Z.testbit (Z.lor av (bit i)) (Z.of_nat j) = true
  ↔ Z.testbit av (Z.of_nat j) = true ∨ j = i.
Proof.
  intros Hi. rewrite Z.lor_spec, orb_true_iff. by rewrite bit_testbit.
Qed.

Lemma lor_bit_nonzero (av : Z) (i : nat) : (i < 64)%nat → 0 ≤ av → Z.lor av (bit i) ≠ 0.
Proof.
  intros Hi Hav H. apply Z.lor_eq_0_iff in H as [_ H].
  pose proof (bit_pos i Hi). lia.
Qed.

(** ** The scan of [replace] *)

Lemma scan_slot_scanned (n : string) (seen : list (nat * option (gmap string key)))
    (acc : key * Z) (i : nat) (m : option (gmap string key)) :
  (i < 64)%nat →
  (∀ k, mapget m n = Some k → k ≠ zero_key) →
  (∀ k j m' k', mapget m n = Some k → (j, m') ∈ seen → mapget m' n = Some k' →
                k = k' ∨ newerThan k k' = true ∨ newerThan k' k = true) →
  scanned n seen acc →
  scanned n (seen ++ [(i, m)]) (scan_slot n acc (i, m)).
Proof.
  intros Hi Hnz Htot Hacc. unfold scan_slot. destruct acc as [nk na]. simpl.
  destruct (mapget m n) as [rk|] eqn:Hrk.
  2:{ destruct Hacc as [[Heq Hold]|(Hna & Hpos & Hz & Hheld & Hmax & Hbits)].
      - left. split; [done|]. intros j m' k [Hin|Hin%list_elem_of_singleton]%elem_of_app;
          [by apply (Hold j m' k)|]. injection Hin as -> ->. congruence.
      - right. simpl in *. repeat split; try done.
        + destruct Hheld as (j & m' & Hin & Hk). exists j, m'.
          split; [apply elem_of_app; by left|done].
        + intros j m' k [Hin|Hin%list_elem_of_singleton]%elem_of_app;
            [by apply (Hmax j m' k)|]. injection Hin as -> ->. congruence.
        + intros (m' & Hin & Hk)%Hbits. exists m'.
          split; [apply elem_of_app; by left|done].
        + intros (m' & [Hin|Hin%list_elem_of_singleton]%elem_of_app & Hk).
          * apply Hbits. by exists m'.
          * injection Hin as -> ->. congruence. }
  specialize (Hnz rk eq_refl).
  assert (Hnew : ∀ j m' k, (j, m') ∈ seen ++ [(i, m)] → mapget m' n = Some k →
                           (j, m') ∈ seen ∨ (j = i ∧ k = rk)).
  { intros j m' k [Hin|Hin%list_elem_of_singleton]%elem_of_app Hk; [by left|].
    injection Hin as -> ->. right. split; [done|congruence]. }
  destruct Hacc as [[Heq Hold]|(Hna & Hpos & Hz & Hheld & Hmax & Hbits)].
  - injection Heq as -> ->. rewrite bool_decide_eq_false_2 by done.
    destruct (newerThan rk zero_key) eqn:Hnewer.
    + right. simpl. pose proof (bit_pos i Hi). repeat split; try lia; try done.
      * exists i, m. split; [apply elem_of_app; right; by left|done].
      * intros j m' k Hin Hk. destruct (Hnew j m' k Hin Hk) as [Hs|[_ ->]]; [|by left].
        right. pose proof (Hold j m' k Hs Hk) as Hk0.
        destruct (newerThan_between rk k zero_key Hnewer) as [?|?]; [done|congruence].
      * intros Hj. apply bit_testbit in Hj; [|done]. subst j. exists m.
        split; [apply elem_of_app; right; by left|done].
      * intros (m' & Hin & Hk). apply bit_testbit; [done|].
        destruct (Hnew j m' rk Hin Hk) as [Hs|[-> _]]; [|done].
        pose proof (Hold j m' rk Hs Hk). congruence.
    + left. split; [done|]. intros j m' k Hin Hk.
      destruct (Hnew j m' k Hin Hk) as [Hs|[_ ->]]; [by apply (Hold j m' k)|done].
  - simpl in *. case_bool_decide as Heq.
    + subst rk. right. simpl. repeat split; try done.
      * by apply lor_bit_nonzero.
      * apply Z.lor_nonneg. pose proof (bit_pos i Hi). lia.
      * exists i, m. split; [apply elem_of_app; right; by left|done].
      * intros j m' k Hin Hk. destruct (Hnew j m' k Hin Hk) as [Hs|[_ ->]];
          [by apply (Hmax j m' k)|by left].
      * intros Hj. apply lor_bit_testbit in Hj; [|done].
        destruct Hj as [(m' & Hin & Hk)%Hbits| ->].
        -- exists m'. split; [apply elem_of_app; by left|done].
        -- exists m. split; [apply elem_of_app; right; by left|done].
      * intros (m' & Hin & Hk). apply lor_bit_testbit; [done|].
        destruct (Hnew j m' nk Hin Hk) as [Hs|[-> _]]; [left|by right].
        apply Hbits. by exists m'.
    + destruct (newerThan rk nk) eqn:Hnewer.
      * right. simpl. pose proof (bit_pos i Hi). repeat split; try lia; try done.
        -- by apply (newerThan_trans rk nk zero_key).
        -- exists i, m. split; [apply elem_of_app; right; by left|done].
        -- intros j m' k Hin Hk. destruct (Hnew j m' k Hin Hk) as [Hs|[_ ->]]; [|by left].
           right. destruct (Hmax j m' k Hs Hk) as [->|Hk']; [done|].
           by apply (newerThan_trans rk nk k).
        -- intros Hj. apply bit_testbit in Hj; [|done]. subst j. exists m.
           split; [apply elem_of_app; right; by left|done].
        -- intros (m' & Hin & Hk). apply bit_testbit; [done|].
           destruct (Hnew j m' rk Hin Hk) as [Hs|[-> _]]; [|done].
           destruct (Hmax j m' rk Hs Hk) as [->|Hk']; [done|].
           pose proof (newerThan_asym rk nk Hnewer). congruence.
      * right. simpl. repeat split; try done.
        -- destruct Hheld as (j & m' & Hin & Hk). exists j, m'.
           split; [apply elem_of_app; by left|done].
        -- intros j m' k Hin Hk. destruct (Hnew j m' k Hin Hk) as [Hs|[_ ->]];
             [by apply (Hmax j m' k)|].
           destruct Hheld as (j0 & m0 & Hin0 & Hk0).
           destruct (Htot rk j0 m0 nk eq_refl Hin0 Hk0) as [?|[?|?]];
             [by left|congruence|by right].
        -- intros (m' & Hin & Hk)%Hbits. exists m'.
           split; [apply elem_of_app; by left|done].
        -- intros (m' & Hin & Hk). destruct (Hnew j m' nk Hin Hk) as [Hs|[_ ?]]; [|done].
           apply Hbits. by exists m'.
Qed.

Lemma scan_all_scanned (n : string) (l : list (nat * option (gmap string key))) :
  (∀ i m, (i, m) ∈ l → (i < 64)%nat) →
  (∀ i m k, (i, m) ∈ l → mapget m n = Some k → k ≠ zero_key) →
  (∀ i m k j m' k', (i, m) ∈ l → mapget m n = Some k →
                    (j, m') ∈ l → mapget m' n = Some k' →
                    k = k' ∨ newerThan k k' = true ∨ newerThan k' k = true) →
  scanned n l (foldl (scan_slot n) (zero_key, 0) l).
Proof.
  induction l as [|[i m] l IH] using rev_ind; intros Hidx Hnz Htot.
  - left. split; [done|]. intros i m k Hin. by apply elem_of_nil in Hin.
  - rewrite foldl_snoc. apply scan_slot_scanned.
    + apply (Hidx i m). apply elem_of_app. right. by left.
    + intros k. apply (Hnz i m). apply elem_of_app. right. by left.
    + intros k j m' k' Hk Hin Hk'.
      apply (Htot i m k j m' k'); [|done| |done]; apply elem_of_app;
        [right; by left|by left].
    + apply IH.
      * intros j m' Hin. apply (Hidx j m'). apply elem_of_app. by left.
      * intros j m' k Hin. apply (Hnz j m'). apply elem_of_app. by left.
      * intros j m' k j2 m2 k2 Hin Hk Hin2 Hk2.
        apply (Htot j m' k j2 m2 k2); [|done| |done]; apply elem_of_app; by left.
Qed.

Lemma elem_of_slots (rks : list (option (gmap string key))) (i : nat)
    (m : option (gmap string key)) :
  (i, m) ∈ imap pair rks ↔ rks !! i = Some m.
Proof.
  rewrite elem_of_lookup_imap. split.
  - intros (j & y & [= -> ->] & Hj). done.
  - intros Hi. by exists i, m.
Qed.

Lemma recompute_lookup (rks : list (option (gmap string key)))
    (g : gmap string key * gmap string Z) (a n : string) :
  (recompute rks g a).1 !! n
  = (if decide (n = a) then fst <$> recomputed rks a else g.1 !! n)
  ∧ (recompute rks g a).2 !! n
    = (if decide (n = a) then snd <$> recomputed rks a else g.2 !! n).
Proof.
  unfold recompute, recomputed. destruct (newest rks a) as [nk na]. simpl.
  case_bool_decide; simpl; case_decide as Hn; subst;
    rewrite ?lookup_insert_eq, ?lookup_delete_eq;
    rewrite ?lookup_insert_ne, ?lookup_delete_ne by done; done.
Qed.

Lemma recompute_all_lookup (rks : list (option (gmap string key))) (ns : list string) :
  ∀ (g : gmap string key * gmap string Z) (n : string),
    (foldl (recompute rks) g ns).1 !! n
    = (if decide (n ∈ ns) then fst <$> recomputed rks n else g.1 !! n)
    ∧ (foldl (recompute rks) g ns).2 !! n
      = (if decide (n ∈ ns) then snd <$> recomputed rks n else g.2 !! n).
Proof.
  induction ns as [|a ns IH]; intros g n.
  - simpl. done.
  - change (foldl (recompute rks) g (a :: ns))
      with (foldl (recompute rks) (recompute rks g a) ns).
    destruct (IH (recompute rks g a) n) as [-> ->].
    destruct (recompute_lookup rks g a n) as [-> ->].
    destruct (decide (n ∈ ns)) as [Hin|Hnin].
    + rewrite !(decide_True (P := n ∈ a :: ns)) by (by right). done.
    + destruct (decide (n = a)) as [->|Hne].
      * rewrite !(decide_True (P := a ∈ a :: ns)) by (by left). done.
      * rewrite !(decide_False (P := n ∈ a :: ns)); [done| |];
          by intros [?|?]%elem_of_cons.
Qed.

(** ** Keys the peers hold *)

Lemma peer_key_slot (s : FileSet) (i : nat) (n : string) (k : key) :
  peer_key s i n = Some k →
  ∃ m, remoteKey s !! i = Some m ∧ mapget m n = Some k.
Proof.
  unfold peer_key. destruct (remoteKey s !! i) as [m|]; simpl; [|done].
  intros H. by exists m.
Qed.

Lemma wf_held_key (s : FileSet) (i : nat) (n : string) (k : key) :
  wf s → peer_key s i n = Some k →
  (i < 64)%nat ∧ ∃ g, k = keyFor g ∧ scanner.Name g = n.
Proof.
  intros Hwf (m & Hm & Hk)%peer_key_slot.
  pose proof (names_ok_lookup _ _ _ _ _ (wf_names s Hwf) Hm Hk) as Hname.
  split; [rewrite <- (wf_slots s Hwf); by eapply lookup_lt_Some|].
  destruct (held_present s i m k Hwf Hm) as (r & _ & Hkey); [by rewrite Hname|].
  exists (File r). split; [done|]. by rewrite <- (keyFor_Name (File r)), Hkey.
Qed.

Lemma wf_held_total (s : FileSet) (i j : nat) (n : string) (k k' : key) :
  wf s → peer_key s i n = Some k → peer_key s j n = Some k' →
  k = k' ∨ newerThan k k' = true ∨ newerThan k' k = true.
Proof.
  intros Hwf (_ & g & -> & Hg)%wf_held_key (_ & g' & -> & Hg')%wf_held_key; try done.
  destruct (decide (keyFor g = keyFor g')) as [?|Hne]; [by left|right].
  apply keyFor_comparable; [congruence|done].
Qed.

(** ** The global view after the second loop of [replace] *)

Lemma replace_recomputed_global (cid : nat) (s : FileSet)
    (old : option (gmap string key)) (fls : gmap key fileRecord) (ch : list Z) :
  wf s → global_ok s →
  remoteKey s !! cid = Some old →
  global_ok
    {| files := fls;
       remoteKey := <[cid := Some ∅]> (remoteKey s);
       changes := ch;
       globalAvailability :=
         (foldl (recompute (<[cid := Some ∅]> (remoteKey s)))
                (globalKey s, globalAvailability s)
                (range_of (Some (globalKey s))).*1).2;
       globalKey :=
         (foldl (recompute (<[cid := Some ∅]> (remoteKey s)))
                (globalKey s, globalAvailability s)
                (range_of (Some (globalKey s))).*1).1 |}.
Proof.
  intros Hwf Hglob Hslot.
  set (rks := <[cid := Some ∅]> (remoteKey s)).
  set (ns := (range_of (Some (globalKey s))).*1).
  set (s2 := {| files := fls; remoteKey := rks |}).
  assert (Hlt : (cid < length (remoteKey s))%nat) by (by eapply lookup_lt_Some).
  assert (Hsub : ∀ i n k, peer_key s2 i n = Some k → peer_key s i n = Some k).
  { intros i n k. unfold peer_key, s2, rks. simpl.
    destruct (decide (i = cid)) as [->|Hne].
    - rewrite list_lookup_insert_eq by done. simpl. by rewrite lookup_empty.
    - by rewrite list_lookup_insert_ne. }
  assert (Hns : ∀ n, n ∈ ns ↔ is_Some (globalKey s !! n)).
  { intros n. unfold ns. simpl. rewrite list_elem_of_fmap. split.
    - intros ([n' k] & -> & Hin%elem_of_map_to_list). by exists k.
    - intros [k Hk]. exists (n, k). split; [done|]. by apply elem_of_map_to_list. }
  assert (Hscan : ∀ n, scanned n (imap pair rks) (newest rks n)).
  { intros n. apply scan_all_scanned.
    - intros i m Hin%elem_of_slots. apply lookup_lt_Some in Hin.
      unfold rks in Hin. rewrite length_insert, (wf_slots s Hwf) in Hin. done.
    - intros i m k Hin%elem_of_slots Hk.
      assert (Hpk : peer_key s2 i n = Some k).
      { unfold peer_key, s2. simpl. by rewrite Hin. }
      apply Hsub, (wf_held_key s i n k Hwf) in Hpk as (_ & g & -> & _).
      apply keyFor_not_zero.
    - intros i m k j m' k' Hin%elem_of_slots Hk Hin'%elem_of_slots Hk'.
      apply (wf_held_total s i j n k k' Hwf); apply Hsub;
        unfold peer_key, s2; simpl; [by rewrite Hin|by rewrite Hin']. }
  assert (Hpk : ∀ i n k, peer_key s2 i n = Some k
                         ↔ ∃ m, (i, m) ∈ imap pair rks ∧ mapget m n = Some k).
  { intros i n k. split.
    - intros (m & Hm & Hk)%peer_key_slot. exists m. by rewrite elem_of_slots.
    - intros (m & Hm%elem_of_slots & Hk). unfold peer_key, s2. simpl. by rewrite Hm. }
  constructor.
  - intros n gk. simpl.
    destruct (recompute_all_lookup rks ns (globalKey s, globalAvailability s) n)
      as [-> Hav].
    case_decide as Hin; simpl.
    2:{ intros Hk. destruct Hin. apply Hns. by exists gk. }
    unfold recomputed in *. specialize (Hscan n).
    destruct (newest rks n) as [nk na]. simpl in *.
    case_bool_decide as Hna; simpl; [|done]. intros [= <-].
    destruct Hscan as [[[= -> ->] _]|(_ & Hpos & Hz & Hheld & Hmax & Hbits)]; [done|].
    simpl in *. constructor.
    + destruct Hheld as (i & m & Hm & Hk). exists i. apply Hpk. by exists m.
    + done.
    + intros i k (m & Hm & Hk)%Hpk. by apply (Hmax i m k).
    + exists na. simpl. rewrite Hav. simpl. repeat split; try done.
      * intros (m & Hm & Hk)%Hbits. apply Hpk. by exists m.
      * intros (m & Hm & Hk)%Hpk. apply Hbits. by exists m.
  - intros n i k. simpl.
    destruct (recompute_all_lookup rks ns (globalKey s, globalAvailability s) n)
      as [-> _].
    case_decide as Hin; simpl.
    + unfold recomputed. specialize (Hscan n).
      destruct (newest rks n) as [nk na]. simpl in *.
      case_bool_decide as Hna; simpl; [done|]. intros _ (m & Hm & Hk)%Hpk.
      destruct Hscan as [[_ Hold]|(Hna' & _)]; [|done].
      by apply (Hold i m k).
    + intros Hnone Hk%Hsub. by apply (go_missing s Hglob n i k).
Qed.

(** ** The global view after one descriptor of [update] *)

Lemma peer_key_added (s s' : FileSet) (cid : nat) (rf : gmap string key)
    (n : string) (fk : key) :
  remoteKey s !! cid = Some (Some rf) →
  remoteKey s' = <[cid := Some (<[n := fk]> rf)]> (remoteKey s) →
  ∀ i n', peer_key s' i n'
          = if decide (i = cid ∧ n' = n) then Some fk else peer_key s i n'.
Proof.
  intros Hslot Hrk i n'. unfold peer_key. rewrite Hrk.
  assert (Hlt : (cid < length (remoteKey s))%nat) by (by eapply lookup_lt_Some).
  destruct (decide (i = cid)) as [->|Hi].
  - rewrite list_lookup_insert_eq, Hslot by done. simpl.
    destruct (decide (n' = n)) as [->|Hn].
    + rewrite decide_True by done. apply lookup_insert_eq.
    + rewrite decide_False by (by intros [_ ?]). by apply lookup_insert_ne.
  - rewrite list_lookup_insert_ne by done.
    by rewrite decide_False by (by intros [? _]).
Qed.

Lemma global_ok_added (s s' : FileSet) (cid : nat) (rf : gmap string key)
    (f : scanner.File) :
  wf s → global_ok s →
  remoteKey s !! cid = Some (Some rf) →
  rf !! scanner.Name f = None →
  remoteKey s' = <[cid := Some (<[scanner.Name f := keyFor f]> rf)]> (remoteKey s) →
  (if bool_decide (globalKey s !! scanner.Name f = Some (keyFor f)) then
     (globalKey s,
      <[scanner.Name f :=
          Z.lor (default 0 (globalAvailability s !! scanner.Name f)) (bit cid)]>
        (globalAvailability s))
   else if newerThan (keyFor f) (default zero_key (globalKey s !! scanner.Name f)) then
     (<[scanner.Name f := keyFor f]> (globalKey s),
      <[scanner.Name f := bit cid]> (globalAvailability s))
   else (globalKey s, globalAvailability s))
  = (globalKey s', globalAvailability s') →
  global_ok s'.
Proof.
  intros Hwf [Hent Hmiss] Hslot Hfree Hrk Hg.
  set (n := scanner.Name f) in *. set (fk := keyFor f) in *.
  pose proof (peer_key_added s s' cid rf n fk Hslot Hrk) as Hpk.
  assert (Hcid : (cid < 64)%nat).
  { rewrite <- (wf_slots s Hwf). by eapply lookup_lt_Some. }
  assert (Hnone : peer_key s cid n = None).
  { unfold peer_key. by rewrite Hslot. }
  assert (Hother : ∀ i n', n' ≠ n → peer_key s' i n' = peer_key s i n').
  { intros i n' Hn. rewrite Hpk. by rewrite decide_False by (by intros [_ ?]). }
  assert (Hsame : ∀ i, i ≠ cid → peer_key s' i n = peer_key s i n).
  { intros i Hi. rewrite Hpk. by rewrite decide_False by (by intros [? _]). }
  assert (Hnew : peer_key s' cid n = Some fk).
  { rewrite Hpk. by rewrite decide_True. }
  assert (Hkeep : ∀ n' gk, n' ≠ n →
            globalKey s' !! n' = globalKey s !! n' →
            globalAvailability s' !! n' = globalAvailability s !! n' →
            globalKey s' !! n' = Some gk → global_entry_ok s' n' gk).
  { intros n' gk Hn HgK HgA Hk. rewrite HgK in Hk.
    destruct (Hent n' gk Hk) as [[i Hi] Hz Hmax (av & Hav & Hpos & Hnz & Hbits)].
    constructor.
    - exists i. by rewrite Hother.
    - done.
    - intros j k. rewrite Hother by done. apply Hmax.
    - exists av. rewrite HgA. repeat split; try done.
      + intros Hb. rewrite Hother by done. by apply Hbits.
      + rewrite Hother by done. by apply Hbits. }
  assert (Hkeep0 : ∀ n' i k, n' ≠ n →
            globalKey s' !! n' = globalKey s !! n' →
            globalKey s' !! n' = None → peer_key s' i n' = Some k →
            newerThan k zero_key = false).
  { intros n' i k Hn HgK Hk. rewrite HgK in Hk. rewrite Hother by done.
    by apply Hmiss. }
  assert (Hfk : ∀ i k, peer_key s i n = Some k →
                       k = fk ∨ newerThan k fk = true ∨ newerThan fk k = true).
  { intros i k (_ & g & -> & Hgn)%wf_held_key; [|done].
    destruct (decide (keyFor g = fk)) as [?|Hne]; [by left|right].
    apply keyFor_comparable; done. }
  case_bool_decide as Heq.
  - (* the key is the global key: the bit of [cid] joins the mask *)
    injection Hg as HgK HgA.
    destruct (Hent n fk Heq) as [[i Hi] Hz Hmax (av & Hav & Hpos & Hnz & Hbits)].
    constructor.
    + intros n' gk Hk. destruct (decide (n' = n)) as [->|Hn].
      2:{ apply Hkeep; [done|by rewrite <- HgK| |done].
          rewrite <- HgA. by apply lookup_insert_ne. }
      rewrite <- HgK, Heq in Hk. injection Hk as <-. constructor.
      * by exists cid.
      * done.
      * intros j k. destruct (decide (j = cid)) as [->|Hj].
        -- rewrite Hnew. intros [= <-]. by left.
        -- rewrite Hsame by done. apply Hmax.
      * exists (Z.lor av (bit cid)). rewrite <- HgA, lookup_insert_eq, Hav. simpl.
        split; [done|]. split; [apply Z.lor_nonneg; pose proof (bit_pos cid Hcid); lia|].
        split; [by apply lor_bit_nonzero|].
        intros j. rewrite lor_bit_testbit by done.
        destruct (decide (j = cid)) as [->|Hj].
        -- rewrite Hnew. split; [done|by right].
        -- rewrite Hsame by done. rewrite Hbits. split; [intros [?|?]; done|by left].
    + intros n' j k Hk. destruct (decide (n' = n)) as [->|Hn].
      * rewrite <- HgK, Heq in Hk. done.
      * apply Hkeep0; [done|by rewrite <- HgK|done].
  - destruct (newerThan fk (default zero_key (globalKey s !! n))) eqn:Hnewer.
    + (* the key is newer: it becomes the global key, held by [cid] alone *)
      injection Hg as HgK HgA.
      assert (Hbelow : ∀ i k, peer_key s i n = Some k → newerThan fk k = true).
      { intros i k Hk. destruct (globalKey s !! n) as [gk|] eqn:Hgk; simpl in Hnewer.
        - destruct (ge_newest s n gk (Hent n gk Hgk) i k Hk) as [->|Hk']; [done|].
          by apply (newerThan_trans fk gk k).
        - pose proof (Hmiss n i k Hgk Hk) as Hk0.
          destruct (newerThan_between fk k zero_key Hnewer) as [?|?]; [done|congruence]. }
      assert (Hzero : newerThan fk zero_key = true).
      { destruct (globalKey s !! n) as [gk|] eqn:Hgk; simpl in Hnewer; [|done].
        apply (newerThan_trans fk gk zero_key Hnewer).
        apply (ge_above_zero s n gk (Hent n gk Hgk)). }
      constructor.
      * intros n' gk Hk. destruct (decide (n' = n)) as [->|Hn].
        2:{ apply Hkeep; [done| | |done].
            - rewrite <- HgK. by apply lookup_insert_ne.
            - rewrite <- HgA. by apply lookup_insert_ne. }
        rewrite <- HgK, lookup_insert_eq in Hk. injection Hk as <-. constructor.
        -- by exists cid.
        -- done.
        -- intros j k. destruct (decide (j = cid)) as [->|Hj].
           ++ rewrite Hnew. intros [= <-]. by left.
           ++ rewrite Hsame by done. intros Hk. right. by apply (Hbelow j).
        -- exists (bit cid). rewrite <- HgA, lookup_insert_eq.
           pose proof (bit_pos cid Hcid).
           split; [done|]. split; [lia|]. split; [lia|].
           intros j. rewrite bit_testbit by done.
           destruct (decide (j = cid)) as [->|Hj]; [by rewrite Hnew|].
           rewrite Hsame by done. split; [done|]. intros Hk.
           pose proof (Hbelow j fk Hk) as Hirr. by rewrite newerThan_irrefl in Hirr.
      * intros n' i k Hk. destruct (decide (n' = n)) as [->|Hn].
        -- by rewrite <- HgK, lookup_insert_eq in Hk.
        -- apply Hkeep0; [done| |done]. rewrite <- HgK. by apply lookup_insert_ne.
    + (* the key is older: the global view stays *)
      injection Hg as HgK HgA. constructor.
      * intros n' gk Hk. destruct (decide (n' = n)) as [->|Hn].
        2:{ apply Hkeep; [done|by rewrite <- HgK|by rewrite <- HgA|done]. }
        rewrite <- HgK in Hk. rewrite Hk in Hnewer, Heq. simpl in Hnewer.
        destruct (Hent n gk Hk) as [[i Hi] Hz Hmax (av & Hav & Hpos & Hnz & Hbits)].
        assert (Hi' : i ≠ cid) by (intros ->; congruence).
        constructor.
        -- exists i. by rewrite Hsame.
        -- done.
        -- intros j k. destruct (decide (j = cid)) as [->|Hj].
           ++ rewrite Hnew. intros [= <-].
              destruct (Hfk i gk Hi) as [->|[?|?]]; [done|by right|congruence].
           ++ rewrite Hsame by done. apply Hmax.
        -- exists av. rewrite <- HgA.
           split; [done|]. split; [done|]. split; [done|].
           intros j. destruct (decide (j = cid)) as [->|Hj].
           ++ rewrite Hnew. split.
              ** intros Hb%Hbits. congruence.
              ** intros [= <-]. done.
           ++ rewrite Hsame by done. apply Hbits.
      * intros n' i k Hk. destruct (decide (n' = n)) as [->|Hn].
        2:{ apply Hkeep0; [done|by rewrite <- HgK|done]. }
        rewrite <- HgK in Hk. rewrite Hk in Hnewer. simpl in Hnewer.
        destruct (decide (i = cid)) as [->|Hi].
        -- rewrite Hnew. by intros [= <-].
        -- rewrite Hsame by done. by apply Hmiss.
Qed.

(** ** The global view along disciplined runs *)

Lemma global_ok_same_view (s s' : FileSet) :
  remoteKey s' = remoteKey s →
  globalKey s' = globalKey s →
  globalAvailability s' = globalAvailability s →
  global_ok s → global_ok s'.
Proof.
  intros Hrk HgK HgA [Hent Hmiss].
  assert (Hpk : ∀ i n, peer_key s' i n = peer_key s i n).
  { intros i n. unfold peer_key. by rewrite Hrk. }
  constructor.
  - intros n gk Hk. rewrite HgK in Hk.
    destruct (Hent n gk Hk) as [[i Hi] Hz Hmax (av & Hav & Hpos & Hnz & Hbits)].
    constructor.
    + exists i. by rewrite Hpk.
    + done.
    + intros j k. rewrite Hpk. apply Hmax.
    + exists av. rewrite HgA. split; [done|]. split; [done|]. split; [done|].
      intros j. rewrite Hpk. apply Hbits.
  - intros n i k. rewrite HgK, Hpk. apply Hmiss.
Qed.

Lemma update_file_global (cid : nat) (s s' : FileSet) (f : scanner.File)
    (rf : gmap string key) :
  wf s → global_ok s →
  remoteKey s !! cid = Some (Some rf) →
  rf !! scanner.Name f = None ∨ rf !! scanner.Name f = Some (keyFor f) →
  update_file cid s f = Ok s' →
  global_ok s'.
Proof.
  intros Hwf Hglob Hslot Hadd. unfold update_file. rewrite Hslot. simpl.
  destruct Hadd as [Hnone|Hsome].
  2:{ rewrite bool_decide_eq_true_2 by done. by intros [= <-]. }
  rewrite bool_decide_eq_false_2 by (rewrite Hnone; done).
  match goal with
  | |- context [let '(_, _) := ?X in _] => destruct X as [gk' ga'] eqn:Hg
  end.
  intros [= <-]. by apply (global_ok_added s _ cid rf f).
Qed.

Lemma update_loop_global (cid : nat) (fs : list scanner.File) :
  ∀ (s s' : FileSet) (rf : gmap string key),
    wf s → global_ok s →
    remoteKey s !! cid = Some (Some rf) →
    adds_only rf fs →
    one_key_per_name fs →
    update_loop cid fs s = Ok s' →
    global_ok s'.
Proof.
  induction fs as [|f fs IH]; intros s s' rf Hwf Hglob Hslot Hadd Hone; simpl.
  - by intros [= <-].
  - assert (Hf : rf !! scanner.Name f = None ∨ rf !! scanner.Name f = Some (keyFor f))
      by (apply Hadd; by left).
    destruct (update_file_adds cid s f rf Hwf Hslot Hf) as (s1 & Hs1 & Hwf1 & Hslot1).
    pose proof (update_file_global cid s s1 f rf Hwf Hglob Hslot Hf Hs1) as Hglob1.
    rewrite Hs1. simpl. apply (IH s1 s' _ Hwf1 Hglob1 Hslot1).
    + intros g Hg. destruct (decide (scanner.Name g = scanner.Name f)) as [Heq|Hne].
      * right. rewrite Heq, lookup_insert_eq. f_equal. symmetry.
        apply Hone; [by right|by left|done].
      * rewrite lookup_insert_ne by done. apply Hadd. by right.
    + intros g h Hg Hh. apply Hone; by right.
Qed.

Lemma update_global (cid : nat) (fs : list scanner.File) (s s' : FileSet) :
  wf s → global_ok s →
  one_key_per_name fs →
  (∀ m, remoteKey s !! cid = Some (Some m) → adds_only m fs) →
  update cid fs s = Ok s' →
  global_ok s'.
Proof.
  intros Hwf Hglob Hone Hadd. unfold update, index.
  destruct (remoteKey s !! cid) as [[m|]|] eqn:Hslot; simpl; [| |discriminate].
  - by apply (update_loop_global cid fs s s' m); [| | |apply Hadd|].
  - intros H. by rewrite (update_loop_nil_slot cid fs s s' Hslot H).
Qed.

Lemma bump_global (id : nat) (s s' : FileSet) :
  global_ok s → bump id s = Ok s' → global_ok s'.
Proof.
  intros Hglob. unfold bump, index.
  destruct (changes s !! id) as [c|]; simpl; [|discriminate].
  intros [= <-]. by apply (global_ok_same_view s).
Qed.

Lemma replace_global (cid : nat) (fs : list scanner.File) (s s' : FileSet) :
  wf s → global_ok s → one_key_per_name fs →
  replace cid fs s = Ok s' → global_ok s'.
Proof.
  intros Hwf Hglob Hone. unfold replace, index.
  destruct (remoteKey s !! cid) as [old|] eqn:Hslot; simpl; [|discriminate].
  apply update_global.
  - by apply replace_cleared_wf.
  - by apply (replace_recomputed_global cid s old).
  - done.
  - simpl. intros m Hm. rewrite list_lookup_insert_eq in Hm.
    + injection Hm as <-. intros f _. left. apply lookup_empty.
    + by eapply lookup_lt_Some.
Qed.

(** What [ReplaceWithDelete] does once it has found a difference: it
    counts, and replaces with a list that still gives each name one key. *)
Lemma ReplaceWithDelete_in_replaces (order : list (string * key)) (id : nat)
    (fs : list scanner.File) (s s' : FileSet) (clockVal clockVal' : Z) :
  wf s →
  one_key_per_name fs →
  order ≡ₚ range_of (default None (remoteKey s !! LocalID)) →
  ReplaceWithDelete_in order id fs (s, clockVal) = Ok (s', clockVal') →
  s' = s
  ∨ ∃ s1 fs', bump id s = Ok s1 ∧ one_key_per_name fs' ∧ replace id fs' s1 = Ok s'.
Proof.
  intros Hwf Hone Hperm. unfold ReplaceWithDelete_in. simpl.
  case_bool_decide; [discriminate|].
  destruct (equals id fs s) as [[|]|] eqn:Heq; simpl;
    [intros [= <- <-]; by left| |discriminate].
  destruct (bump id s) as [s1|] eqn:Hb; simpl; [|discriminate].
  destruct (bump_remoteKey _ _ _ Hb) as [Hrk Hfl].
  match goal with
  | |- context [foldl (add_deleted ?nf ?fls) ?acc ?ks] =>
      destruct (add_deleted_all nf fls ks acc) as (T & HT & HndT & Hmem);
      [| |destruct (foldl (add_deleted nf fls) acc ks) as [fs' c'] eqn:Hfold]
  end.
  - intros ck Hck. rewrite Hperm in Hck.
    destruct (remoteKey s !! LocalID) as [local|] eqn:Hlocal;
      [|by apply elem_of_nil in Hck].
    simpl in Hck. rewrite Hfl.
    apply (held_record s LocalID local ck Hwf Hlocal).
    apply held_keys; [|done].
    intros n k. apply (names_ok_lookup (remoteKey s) LocalID local n k); [apply Hwf|done].
  - rewrite Hperm. apply range_keys_NoDup.
    destruct (remoteKey s !! LocalID) as [local|] eqn:Hlocal; simpl; [|done].
    intros n k. apply (names_ok_lookup (remoteKey s) LocalID local n k); [apply Hwf|done].
  - simpl in HT. subst fs'.
    destruct (replace id (fs ++ T) s1) as [s2|] eqn:Hrep; simpl; [|discriminate].
    intros [= <- <-]. right. exists s1, (fs ++ T). split; [done|]. split; [|done].
    apply one_key_per_name_app; [done|done|].
    intros t Ht. destruct (Hmem t Ht) as [Hnone _].
    by apply new_names_lookup_None in Hnone as [_ ?].
Qed.

Lemma step_global (s s' : FileSet) : wf s → global_ok s → step s s' → global_ok s'.
Proof.
  intros Hwf Hglob Hstep. revert Hwf Hglob.
  destruct Hstep as [id fs s0 s1 Hone Hadd Hup|id fs s0 s1 Hone Hrep
                    |order id fs s0 c s1 c' Hone Hperm Hrwd]; intros Hwf Hglob.
  - revert Hup. unfold Update.
    destruct (update id fs s0) as [s2|] eqn:Hup; simpl; [|discriminate].
    apply bump_global. by apply (update_global id fs s0 s2).
  - revert Hrep. unfold Replace. case_bool_decide; [discriminate|].
    destruct (equals id fs s0) as [[|]|]; simpl; [by intros [= <-]| |discriminate].
    destruct (bump id s0) as [s2|] eqn:Hb; simpl; [|discriminate].
    apply replace_global; [by eapply bump_wf|by eapply bump_global|done].
  - destruct (ReplaceWithDelete_in_replaces _ _ _ _ _ _ _ Hwf Hone Hperm Hrwd)
      as [->|(s2 & fs' & Hb & Hone' & Hrep)]; [done|].
    apply (replace_global id fs' s2 s1); [by eapply bump_wf|by eapply bump_global|done|done].
Qed.

Lemma NewSet_global : global_ok NewSet.
Proof.
  constructor.
  - intros n gk. cbn [NewSet globalKey]. by rewrite lookup_empty.
  - intros n i k _. unfold peer_key. cbn [NewSet remoteKey].
    destruct (replicate 64 None !! i) as [m|] eqn:Hm; [|done].
    apply lookup_replicate in Hm as [-> _]. done.
Qed.

Lemma reachable_global (s : FileSet) : rtc step NewSet s → wf s ∧ global_ok s.
Proof.
  revert s. apply rtc_ind_r; [split; [apply NewSet_wf|apply NewSet_global]|].
  intros s1 s2 _ Hstep [Hwf Hglob]. split; [by apply (step_wf s1)|].
  by apply (step_global s1).
Qed.

(** X15. On a set reached by disciplined operations, the availability
    mask of a name in the global index is exact: bit [i] is set if and
    only if peer [i] holds the global key of the name; the mask is not
    zero. *)
Theorem availability_exact (s : FileSet) (n : string) (gk : key) :
  rtc step NewSet s →
  globalKey s !! n = Some gk →
  Availability n s ≠ 0
  ∧ ∀ i : nat, Z.testbit (Availability n s) (Z.of_nat i) = true
               ↔ peer_key s i n = Some gk.
Proof.
  intros [_ Hglob]%reachable_global Hk.
  destruct (ge_mask s n gk (go_entries s Hglob n gk Hk)) as (av & Hav & _ & Hnz & Hbits).
  unfold Availability. rewrite Hav. simpl. by split.
Qed.

Lemma installed_reachable : rtc step NewSet installed_set.
Proof.
  apply rtc_once. apply (step_Replace 0 [a1; b1]).
  - apply distinct_names_one_key. apply (bool_decide_unpack _). vm_compute. exact I.
  - vm_compute. reflexivity.
Defined.

Lemma both_reachable : rtc step NewSet both_set.
Proof.
  apply (rtc_r _ installed_set); [apply installed_reachable|].
  apply (step_Replace 1 [a1; b1]).
  - apply distinct_names_one_key. apply (bool_decide_unpack _). vm_compute. exact I.
  - vm_compute. reflexivity.
Defined.

Lemma availability_exact_witness :
  Availability "a" both_set ≠ 0
  ∧ ∀ i : nat, Z.testbit (Availability "a" both_set) (Z.of_nat i) = true
               ↔ peer_key both_set i "a" = Some (keyFor a1).
Proof.
  apply (availability_exact both_set "a" (keyFor a1) both_reachable).
  vm_compute. reflexivity.
Defined.

(** X16. On a set reached by disciplined operations, the global key of
    a name is the newest key held for it: some peer holds it, and every
    key a peer holds for the name is the global key or older. *)
Theorem global_key_newest_held (s : FileSet) (n : string) (gk : key) :
  rtc step NewSet s →
  globalKey s !! n = Some gk →
  (∃ i, peer_key s i n = Some gk)
  ∧ ∀ i k, peer_key s i n = Some k → k = gk ∨ newerThan gk k = true.
Proof.
  intros [_ Hglob]%reachable_global Hk.
  destruct (go_entries s Hglob n gk Hk) as [Hheld _ Hmax _]. by split.
Qed.

Lemma global_key_newest_held_witness :
  (∃ i, peer_key both_set i "a" = Some (keyFor a1))
  ∧ ∀ i k, peer_key both_set i "a" = Some k →
           k = keyFor a1 ∨ newerThan (keyFor a1) k = true.
Proof.
  apply (global_key_newest_held both_set "a" (keyFor a1) both_reachable).
  vm_compute. reflexivity.
Defined.

Lemma hash_above_zero : hash_newer (seq 0 md5.Size) (md5.Sum []) (Hash zero_key) = true.
Proof. vm_compute. reflexivity. Qed.

Lemma keyFor_above_zero (f : scanner.File) :
  newerThan (keyFor f) zero_key = true
  ↔ scanner.Version f > 0 ∨ (scanner.Version f = 0 ∧ 0 ≤ scanner.Modified f).
Proof.
  rewrite newerThan_spec, keyFor_Version, keyFor_Modified, keyFor_Hash.
  change (Version zero_key) with 0. change (Modified zero_key) with 0.
  pose proof hash_above_zero as Hh. split.
  - intros [?|[[? ?]|(? & ? & _)]]; lia.
  - intros [?|[? ?]]; [by left|right].
    destruct (decide (scanner.Modified f = 0)); [right|left; lia]. by repeat split.
Qed.

(** X17. On a set reached by disciplined operations, a name a peer
    holds is in the global index, unless the peer holds it at version 0
    with a negative modification time (or below version 0). *)
Theorem held_name_is_global (s : FileSet) (i : nat) (n : string) (k : key) :
  rtc step NewSet s →
  peer_key s i n = Some k →
  Version k > 0 ∨ (Version k = 0 ∧ 0 ≤ Modified k) →
  is_Some (globalKey s !! n).
Proof.
  intros [Hwf Hglob]%reachable_global Hk Hv.
  destruct (globalKey s !! n) as [gk|] eqn:Hgk; [by exists gk|].
  pose proof (go_missing s Hglob n i k Hgk Hk) as Hz.
  destruct (wf_held_key s i n k Hwf Hk) as (_ & g & -> & _).
  rewrite keyFor_Version, keyFor_Modified in Hv.
  apply keyFor_above_zero in Hv. congruence.
Qed.

Lemma held_name_is_global_witness : is_Some (globalKey both_set !! "b").
Proof.
  apply (held_name_is_global both_set 1 "b" (keyFor b1) both_reachable).
  - vm_compute. reflexivity.
  - left. vm_compute. reflexivity.
Defined.

(** X18. On a set reached by disciplined operations, a name held only
    at version 0 with a negative modification time is not in the global
    index: [update] compares a first key with the zero key, and such a
    key is not newer. *)
Theorem early_name_not_global (s : FileSet) (n : string) :
  rtc step NewSet s →
  (∀ i k, peer_key s i n = Some k → Version k = 0 ∧ Modified k < 0) →
  globalKey s !! n = None.
Proof.
  intros [Hwf Hglob]%reachable_global Hearly.
  destruct (globalKey s !! n) as [gk|] eqn:Hgk; [|done].
  destruct (go_entries s Hglob n gk Hgk) as [[i Hi] Hz _ _].
  destruct (Hearly i gk Hi) as [Hv Hm].
  destruct (wf_held_key s i n gk Hwf Hi) as (_ & g & -> & _).
  rewrite keyFor_Version, keyFor_Modified in *.
  apply keyFor_above_zero in Hz. lia.
Qed.

Lemma early_reachable : rtc step NewSet early_set.
Proof.
  apply rtc_once. apply (step_Replace 0 [early]).
  - apply distinct_names_one_key. apply (bool_decide_unpack _). vm_compute. exact I.
  - vm_compute. reflexivity.
Defined.

Lemma early_name_not_global_witness :
  peer_key early_set 0 "e" = Some (keyFor early) ∧ globalKey early_set !! "e" = None.
Proof.
  split; [vm_compute; reflexivity|].
  apply (early_name_not_global early_set "e" early_reachable).
  intros i k Hk.
  destruct (peer_key_slot _ _ _ _ Hk) as (m & Hm & Hmk).
  destruct i as [|i].
  - vm_compute in Hm. injection Hm as <-. vm_compute in Hmk.
    injection Hmk as <-. split; [reflexivity|reflexivity].
  - assert (Hnil : m = None).
    { change (remoteKey early_set) with (Some ({[ "e" := keyFor early ]} : gmap string key) :: replicate 63 None) in Hm.
      by apply (lookup_replicate 63 None m i) in Hm as [-> _]. }
    subst m. done.
Defined.

(** ** [Need] *)

Lemma collect_nil {A B : Type} (P : A → bool) (h : A → B) (l : list A) :
  ∀ acc : list B,
    foldl (λ fs x, if P x then fs ++ [h x] else fs) acc l = []
    ↔ acc = [] ∧ ∀ x, x ∈ l → P x = false.
Proof.
  induction l as [|a l IH]; intros acc; simpl.
  - split; [|by intros [? _]]. intros ->. split; [done|]. by intros x ?%elem_of_nil.
  - rewrite IH. destruct (P a) eqn:Ha.
    + split.
      * intros [Hnil _]. by destruct acc.
      * intros [_ Hall]. specialize (Hall a (list_elem_of_here a l)). congruence.
    + split.
      * intros [-> Hall]. split; [done|].
        intros x [->|Hx]%elem_of_cons; [done|by apply Hall].
      * intros [-> Hall]. split; [done|]. intros x Hx. apply Hall. by right.
Qed.

Lemma need_step_in_range (cid : nat) (s : FileSet) (rem : option (gmap string key))
    (acc : list scanner.File) (ng : string * key) :
  remoteKey s !! cid = Some rem →
  need_step cid s (Ok acc) ng
  = Ok (if newerThan ng.2 (default zero_key (mapget rem ng.1))
        then acc ++ [record_file s ng.2] else acc).
Proof. intros Hrem. unfold need_step, index. by rewrite Hrem. Qed.

Lemma Need_loop_in_range (cid : nat) (s : FileSet) (rem : option (gmap string key))
    (l : list (string * key)) :
  remoteKey s !! cid = Some rem →
  ∀ acc, foldl (need_step cid s) (Ok acc) l
         = Ok (foldl (λ fs ng, if newerThan ng.2 (default zero_key (mapget rem ng.1))
                               then fs ++ [record_file s ng.2] else fs)
                     acc l).
Proof.
  intros Hrem. induction l as [|ng l IH]; intros acc; cbn [foldl]; [done|].
  rewrite (need_step_in_range cid s rem acc ng Hrem). apply IH.
Qed.

Lemma Need_loop_aborted (cid : nat) (s : FileSet) (msg : string)
    (l : list (string * key)) :
  foldl (need_step cid s) (Panic msg) l = Panic msg.
Proof. induction l as [|ng l IH]; cbn [foldl]; [done|]. exact IH. Qed.

(** With nothing in the global index [Need] returns the empty list for
    any id, in range or not. *)
Lemma Need_without_global (cid : nat) (s : FileSet) :
  globalKey s = ∅ → Need cid s = Ok [].
Proof. intros Hg. unfold Need. rewrite Hg. simpl. by rewrite map_to_list_empty. Qed.

(** With an entry in the global index and an id out of range it aborts. *)
Lemma Need_out_of_range (cid : nat) (s : FileSet) (n : string) (gk : key) :
  globalKey s !! n = Some gk → remoteKey s !! cid = None →
  Need cid s = Panic "index out of range".
Proof.
  intros Hg Hnone. unfold Need. simpl.
  apply elem_of_map_to_list in Hg.
  destruct (map_to_list (globalKey s)) as [|ng l]; [by apply elem_of_nil in Hg|].
  cbn [foldl].
  assert (need_step cid s (Ok []) ng = Panic "index out of range") as ->.
  { unfold need_step, index. by rewrite Hnone. }
  apply Need_loop_aborted.
Qed.

(** X19. On a set reached by disciplined operations, [Need] of a peer
    is empty exactly when the peer holds the global key of every name in
    the global index. *)
Theorem Need_empty_iff (s : FileSet) (cid : nat) :
  rtc step NewSet s →
  (cid < 64)%nat →
  Need cid s = Ok [] ↔ ∀ n gk, globalKey s !! n = Some gk → peer_key s cid n = Some gk.
Proof.
  intros [Hwf Hglob]%reachable_global Hcid.
  assert (Hlt : (cid < length (remoteKey s))%nat) by (by rewrite (wf_slots s Hwf)).
  destruct (lookup_lt_is_Some_2 _ _ Hlt) as [rem Hrem].
  unfold Need. rewrite (Need_loop_in_range cid s rem _ Hrem).
  unfold peer_key. rewrite Hrem. simpl. split.
  - intros [= Hnil]. apply collect_nil in Hnil as [_ Hall].
    intros n gk Hk. specialize (Hall (n, gk)). simpl in Hall.
    assert (Hold : newerThan gk (default zero_key (mapget rem n)) = false).
    { apply Hall. by apply elem_of_map_to_list. }
    destruct (go_entries s Hglob n gk Hk) as [_ Hz Hmax _].
    destruct (mapget rem n) as [k|] eqn:Hrk; simpl in Hold; [|congruence].
    destruct (Hmax cid k) as [->|?]; [|done|congruence].
    unfold peer_key. by rewrite Hrem.
  - intros Hall. f_equal. apply collect_nil. split; [done|].
    intros [n gk] Hin%elem_of_map_to_list. simpl.
    rewrite (Hall n gk Hin). simpl. apply newerThan_irrefl.
Qed.

Lemma Need_empty_iff_witness :
  Need 0 both_set = Ok []
  ↔ ∀ n gk, globalKey both_set !! n = Some gk → peer_key both_set 0 n = Some gk.
Proof. apply (Need_empty_iff both_set 0 both_reachable). lia. Defined.

(** ** [ReplaceWithDelete] keeps the local names *)

Lemma add_deleted_keeps (nf : gmap string key) (fls : gmap key fileRecord)
    (ks : list key) :
  ∀ (acc : list scanner.File * Z) (t : scanner.File),
    t ∈ acc.1 → t ∈ (foldl (add_deleted nf fls) acc ks).1.
Proof.
  induction ks as [|a ks IH]; intros acc t Ht; simpl; [done|].
  apply IH. unfold add_deleted. destruct (nf !! Name a); [done|].
  destruct (tombstone fls a acc.2) as [cf c']. simpl. apply elem_of_app. by left.
Qed.

Lemma add_deleted_covers (nf : gmap string key) (fls : gmap key fileRecord)
    (ks : list key) :
  ∀ (acc : list scanner.File * Z) (ck : key),
    ck ∈ ks → nf !! Name ck = None →
    ∃ t, t ∈ (foldl (add_deleted nf fls) acc ks).1
         ∧ scanner.Name t = scanner.Name (default scanner.zero (File <$> fls !! ck))
         ∧ scanner.Flags t = FlagDeleted ∧ scanner.Blocks t = [] ∧ scanner.Size t = 0.
Proof.
  induction ks as [|a ks IH]; intros acc ck Hin Hnf; [by apply elem_of_nil in Hin|].
  simpl. apply elem_of_cons in Hin as [->|Hin]; [|by apply IH].
  unfold add_deleted at 2. rewrite Hnf. unfold tombstone.
  destruct (lamport.Clock _ _) as [v c']. simpl.
  eexists. split; [apply add_deleted_keeps; simpl; apply elem_of_app; right; by left|].
  done.
Qed.

(** X20. [ReplaceWithDelete] on the local peer keeps the name of a
    local entry whose key carries that name and whose record holds a
    descriptor of that name (every entry is such on a set reached by
    disciplined operations): the name is still bound afterwards, from
    the list or as a descriptor the operation made for it, whatever the
    order of the visits. *)
Theorem ReplaceWithDelete_keeps_local_names (order : list (string * key))
    (fs : list scanner.File) (s s' : FileSet) (clockVal clockVal' : Z)
    (n : string) (k : key) :
  peer_key s LocalID n = Some k →
  Name k = n →
  scanner.Name (record_file s k) = n →
  order ≡ₚ range_of (default None (remoteKey s !! LocalID)) →
  ReplaceWithDelete_in order LocalID fs (s, clockVal) = Ok (s', clockVal') →
  is_Some (peer_key s' LocalID n).
Proof.
  intros Hk Hname Hrec Hperm Hrwd. revert Hrwd.
  unfold ReplaceWithDelete_in.
  rewrite bool_decide_eq_false_2 by (unfold LocalID; lia). simpl.
  destruct (equals LocalID fs s) as [[|]|]; simpl;
    [intros [= <- <-]; by rewrite Hk| |discriminate].
  destruct (bump LocalID s) as [s1|] eqn:Hb; simpl; [|discriminate].
  destruct (bump_remoteKey _ _ _ Hb) as [Hrk Hfl].
  destruct (peer_key_slot _ _ _ _ Hk) as (local & Hlocal & Hlk).
  assert (Hin : k ∈ order.*2).
  { rewrite Hperm, Hlocal. simpl. destruct local as [m|]; simpl in *; [|done].
    apply list_elem_of_fmap. exists (n, k). split; [done|].
    by apply elem_of_map_to_list. }
  match goal with
  | |- context [foldl (add_deleted ?nf ?fls) ?acc ?ks] =>
      pose proof (add_deleted_keeps nf fls ks acc) as Hkeep;
      pose proof (add_deleted_covers nf fls ks acc k Hin) as Hcover;
      destruct (foldl (add_deleted nf fls) acc ks) as [fs' c'] eqn:Hfold
  end.
  simpl in *.
  destruct (replace LocalID fs' s1) as [s2|] eqn:Hrep; simpl; [|discriminate].
  intros [= <- <-]. apply replace_slot in Hrep as [Hlt Hslot].
  unfold peer_key. rewrite Hslot, list_lookup_insert_eq by done. simpl.
  apply not_eq_None_Some. rewrite index_of_lookup_None. intros Hnot. apply Hnot.
  destruct (decide (n ∈ scanner.Name <$> fs)) as [Hfs|Hfs].
  - apply list_elem_of_fmap in Hfs as (f & -> & Hf).
    apply list_elem_of_fmap_2. by apply Hkeep.
  - destruct Hcover as (t & Ht & Htn & _).
    { rewrite Hname. apply new_names_lookup_None. split; [apply lookup_empty|done]. }
    rewrite Hfl in Htn. unfold record_file in Hrec. rewrite Hrec in Htn.
    rewrite <- Htn. by apply list_elem_of_fmap_2.
Qed.

Lemma ReplaceWithDelete_keeps_local_names_witness :
  is_Some (peer_key shrunk_set LocalID "b").
Proof.
  apply (ReplaceWithDelete_keeps_local_names
           (range_of (default None (remoteKey installed_set !! LocalID)))
           [a2] installed_set shrunk_set 0 2 "b" (keyFor b1)).
  - vm_compute. reflexivity.
  - reflexivity.
  - vm_compute. reflexivity.
  - reflexivity.
  - vm_compute. reflexivity.
Defined.

(** Every local entry is such on a set reached by disciplined operations. *)
Lemma reachable_local_entries (s : FileSet) (n : string) (k : key) :
  rtc step NewSet s →
  peer_key s LocalID n = Some k →
  Name k = n ∧ scanner.Name (record_file s k) = n.
Proof.
  intros Hwf%reachable_wf Hk.
  destruct (peer_key_slot _ _ _ _ Hk) as (local & Hlocal & Hlk).
  pose proof (names_ok_lookup _ _ _ _ _ (wf_names s Hwf) Hlocal Hlk) as Hname.
  split; [done|].
  destruct (held_present s LocalID local k Hwf Hlocal) as (r & Hr & Hkey);
    [by rewrite Hname|].
  unfold record_file. rewrite Hr. simpl.
  by rewrite <- (keyFor_Name (File r)), Hkey.
Qed.

(** ** When [Replace] counts *)

Lemma index_of_empty_iff (fs : list scanner.File) : index_of fs = ∅ ↔ fs = [].
Proof.
  split; [|by intros ->].
  destruct fs as [|f fs] using rev_ind; [done|]. unfold index_of.
  rewrite foldl_snoc. intros H. by apply insert_non_empty in H.
Qed.

Lemma equals_true_iff (id : nat) (fs : list scanner.File) (s : FileSet)
    (sl : option (gmap string key)) :
  NoDup (scanner.Name <$> fs) →
  remoteKey s !! id = Some sl →
  equals id fs s = Ok true ↔ ∀ n, peer_key s id n = index_of fs !! n.
Proof.
  intros Hnd Hslot. split.
  - intros Heq n. destruct (equals_true_bindings id fs s Heq) as [Hlen Hall].
    destruct (decide (n ∈ scanner.Name <$> fs)) as [Hin|Hnin].
    + apply list_elem_of_fmap in Hin as (f & -> & Hf).
      rewrite (Hall f Hf). symmetry.
      by apply index_of_lookup; [apply distinct_names_one_key|].
    + rewrite (proj2 (index_of_lookup_None fs n) Hnin).
      unfold peer_key in *. rewrite Hslot in *. simpl in *.
      destruct sl as [m|]; simpl; [|done].
      apply (full_map_no_more m (scanner.Name <$> fs) n Hnd); [| |done].
      * simpl in Hlen. by rewrite length_fmap, <- Hlen, length_map_to_list.
      * intros x (f & -> & Hf)%list_elem_of_fmap. specialize (Hall f Hf).
        simpl in Hall. by rewrite Hall.
  - intros Hview. unfold equals, index. rewrite Hslot. simpl.
    unfold peer_key in Hview. rewrite Hslot in Hview. simpl in Hview.
    assert (Hlen : length (range_of sl) = length fs).
    { destruct sl as [m|]; simpl.
      - assert (m = index_of fs) as -> by (by apply map_eq).
        by rewrite length_map_to_list, index_of_size.
      - assert (index_of fs = ∅) as ->%index_of_empty_iff; [|done].
        apply map_eq. intros n. by rewrite <- Hview, lookup_empty. }
    rewrite bool_decide_eq_false_2 by (intros H; by apply H).
    f_equal. apply forallb_forall. intros f Hf%list_elem_of_In.
    apply bool_decide_eq_true_2. rewrite Hview.
    by rewrite index_of_lookup; [|apply distinct_names_one_key|].
Qed.

(** X21. Given a list without repeated names, [Replace] that returns
    has done one of two things: the peer already held exactly the list
    and the set is unchanged, or it did not and its counter went up by
    one (modulo [2^64]). *)
Theorem Replace_counts_iff_differs (id : nat) (fs : list scanner.File)
    (s s' : FileSet) (c : Z) :
  NoDup (scanner.Name <$> fs) →
  changes s !! id = Some c →
  Replace id fs s = Ok s' →
  ((∀ n, peer_key s id n = index_of fs !! n) ∧ s' = s)
  ∨ (¬ (∀ n, peer_key s id n = index_of fs !! n)
     ∧ changes s' !! id = Some (wrap_u64 (c + 1))).
Proof.
  intros Hnd Hc. unfold Replace. case_bool_decide; [discriminate|].
  destruct (equals id fs s) as [[|]|] eqn:Heq; simpl; [| |discriminate].
  - intros [= <-]. left. split; [|done].
    assert (Hsl : is_Some (remoteKey s !! id)).
    { revert Heq. unfold equals, index. by destruct (remoteKey s !! id); [eexists|]. }
    destruct Hsl as [sl Hsl]. by apply (equals_true_iff id fs s sl).
  - intros Hrep. right. split.
    + assert (Hsl : is_Some (remoteKey s !! id)).
      { revert Heq. unfold equals, index. by destruct (remoteKey s !! id); [eexists|]. }
      destruct Hsl as [sl Hsl]. intros Hview.
      apply (equals_true_iff id fs s sl Hnd Hsl) in Hview. congruence.
    + revert Hrep. unfold bump, index. rewrite Hc. simpl.
      intros [_ Hch]%(replace_others id (S id)); [|lia]. rewrite Hch. simpl.
      apply list_lookup_insert_eq. by eapply lookup_lt_Some.
Qed.

Lemma Replace_counts_iff_differs_witness :
  ((∀ n, peer_key installed_set 1 n = index_of [a1; b1] !! n) ∧ both_set = installed_set)
  ∨ (¬ (∀ n, peer_key installed_set 1 n = index_of [a1; b1] !! n)
     ∧ changes both_set !! 1%nat = Some (wrap_u64 (0 + 1))).
Proof.
  apply (Replace_counts_iff_differs 1 [a1; b1] installed_set both_set 0).
  - apply (bool_decide_unpack _). vm_compute. exact I.
  - vm_compute. reflexivity.
  - vm_compute. reflexivity.
Defined.

(** ** What a peer holds after [Update] *)

Lemma overlay_union (fs : list scanner.File) (m : gmap string key) :
  foldl (λ nf f, <[scanner.Name f := keyFor f]> nf) m fs = index_of fs ∪ m.
Proof.
  unfold index_of. induction fs as [|f fs IH] using rev_ind.
  - simpl. by rewrite (left_id_L ∅ (∪)).
  - rewrite !foldl_snoc, IH. by rewrite insert_union_l.
Qed.

(** X22. [Update] lays the list over what the peer held: after it
    returns, a name of the list is bound to the key of its (last)
    descriptor, and every other name is bound as before. *)
Theorem Update_overlays (id : nat) (fs : list scanner.File) (s s' : FileSet)
    (m : gmap string key) :
  remoteKey s !! id = Some (Some m) →
  Update id fs s = Ok s' →
  ∀ n, peer_key s' id n = (index_of fs ∪ m) !! n.
Proof.
  intros Hslot. unfold Update, update, index. rewrite Hslot. simpl.
  destruct (update_loop id fs s) as [s1|] eqn:Hloop; simpl; [|discriminate].
  intros [Hrk _]%bump_remoteKey n. unfold peer_key. rewrite Hrk.
  rewrite (update_loop_slot id fs s s1 m Hslot Hloop).
  rewrite list_lookup_insert_eq by (by eapply lookup_lt_Some). simpl.
  by rewrite overlay_union.
Qed.

Lemma Update_overlays_witness :
  peer_key rebound_set 0 "a" = (index_of [a2] ∪ index_of [a1]) !! "a".
Proof.
  apply (Update_overlays 0 [a2]
           (match Replace 0 [a1] NewSet with Ok s => s | Panic _ => NewSet end));
    vm_compute; reflexivity.
Defined.

(** ** [Have] and [Global] *)

(** X23. On a set reached by disciplined operations, [Have] returns
    one descriptor for each entry of the peer's index, and the key of
    each descriptor is the key of its entry. *)
Theorem Have_keys (s : FileSet) (cid : nat) (l : list scanner.File) :
  rtc step NewSet s →
  Have cid s = Ok l →
  keyFor <$> l = (range_of (default None (remoteKey s !! cid))).*2.
Proof.
  intros Hwf%reachable_wf. unfold Have, index.
  destruct (remoteKey s !! cid) as [rem|] eqn:Hrem; simpl; [|discriminate].
  intros [= <-]. rewrite <- list_fmap_compose. apply Forall_fmap_ext, Forall_forall.
  intros [n k] Hin. simpl. unfold record_file.
  assert (Hk : mapget rem n = Some k).
  { destruct rem as [m|]; simpl in *; [by apply elem_of_map_to_list|].
    by apply elem_of_nil in Hin. }
  pose proof (names_ok_lookup _ _ _ _ _ (wf_names s Hwf) Hrem Hk) as Hname.
  destruct (held_present s cid rem k Hwf Hrem) as (r & -> & Hkey); [by rewrite Hname|].
  done.
Qed.

Lemma Have_keys_witness :
  keyFor <$> match Have 0 installed_set with Ok l => l | Panic _ => [] end
  = (range_of (default None (remoteKey installed_set !! 0%nat))).*2.
Proof.
  apply (Have_keys installed_set 0); [apply installed_reachable|].
  vm_compute. reflexivity.
Defined.

(** X24. On a set reached by disciplined operations, [Global] returns
    one descriptor for each entry of the global index, and the key of
    each descriptor is the global key of its name. *)
Theorem Global_keys (s : FileSet) :
  rtc step NewSet s →
  keyFor <$> Global s = (map_to_list (globalKey s)).*2.
Proof.
  intros [Hwf Hglob]%reachable_global. unfold Global. simpl.
  rewrite <- list_fmap_compose. apply Forall_fmap_ext, Forall_forall.
  intros [n gk] Hin%elem_of_map_to_list. simpl. unfold record_file.
  destruct (ge_held s n gk (go_entries s Hglob n gk Hin)) as [i Hi].
  destruct (peer_key_slot _ _ _ _ Hi) as (m & Hm & Hk).
  pose proof (names_ok_lookup _ _ _ _ _ (wf_names s Hwf) Hm Hk) as Hname.
  destruct (held_present s i m gk Hwf Hm) as (r & -> & Hkey); [by rewrite Hname|].
  done.
Qed.

Lemma Global_keys_witness :
  keyFor <$> Global both_set = (map_to_list (globalKey both_set)).*2.
Proof. apply (Global_keys both_set both_reachable). Defined.

(** ** Lookups of absent names *)

Lemma zero_key_no_record (s : FileSet) : wf s → files s !! zero_key = None.
Proof.
  intros Hwf. destruct (files s !! zero_key) as [r|] eqn:Hr; [|done].
  destruct (wf_records s Hwf zero_key r Hr) as [Hkey _].
  by destruct (keyFor_not_zero (File r)).
Qed.

(** X25. On a set reached by disciplined operations, [GetGlobal] of a
    name in the global index returns a descriptor whose key is the
    global key of the name, and of any other name the zero descriptor. *)
Theorem GetGlobal_key (s : FileSet) (n : string) :
  rtc step NewSet s →
  match globalKey s !! n with
  | Some gk => keyFor (GetGlobal n s) = gk
  | None => GetGlobal n s = scanner.zero
  end.
Proof.
  intros [Hwf Hglob]%reachable_global. unfold GetGlobal, record_file.
  destruct (globalKey s !! n) as [gk|] eqn:Hgk; simpl.
  - destruct (ge_held s n gk (go_entries s Hglob n gk Hgk)) as [i Hi].
    destruct (peer_key_slot _ _ _ _ Hi) as (m & Hm & Hk).
    pose proof (names_ok_lookup _ _ _ _ _ (wf_names s Hwf) Hm Hk) as Hname.
    destruct (held_present s i m gk Hwf Hm) as (r & -> & Hkey); [by rewrite Hname|].
    done.
  - by rewrite (zero_key_no_record s Hwf).
Qed.

Lemma GetGlobal_key_witness :
  match globalKey both_set !! "a" with
  | Some gk => keyFor (GetGlobal "a" both_set) = gk
  | None => GetGlobal "a" both_set = scanner.zero
  end.
Proof. apply (GetGlobal_key both_set "a" both_reachable). Defined.

(** X26. On a set reached by disciplined operations, [Get] of a name
    the peer does not hold returns the zero descriptor: the zero key is
    never the key of a record. *)
Theorem Get_absent (s : FileSet) (cid : nat) (n : string) :
  rtc step NewSet s →
  (cid < 64)%nat →
  peer_key s cid n = None →
  Get cid n s = Ok scanner.zero.
Proof.
  intros Hwf%reachable_wf Hcid Hnone.
  assert (Hlt : (cid < length (remoteKey s))%nat) by (by rewrite (wf_slots s Hwf)).
  destruct (lookup_lt_is_Some_2 _ _ Hlt) as [rem Hrem].
  unfold Get, index. unfold peer_key in Hnone. rewrite Hrem in *. simpl in *.
  rewrite Hnone. simpl. unfold record_file. by rewrite (zero_key_no_record s Hwf).
Qed.

Lemma Get_absent_witness : Get 1 "c" both_set = Ok scanner.zero.
Proof.
  apply (Get_absent both_set 1 "c" both_reachable); [lia|].
  vm_compute. reflexivity.
Defined.

(** ** [Update] releases nothing *)




